(** * A verified model of the smart calculator (calculator.py)

    The calculator reads a line, converts the infix expression to reverse
    Polish notation with an operator stack ([infix_to_rpn]), evaluates the
    postfix list on a value stack ([rpn_to_result]) and keeps a dictionary of
    variables ([parse_assignment]).  This file embeds these functions and
    proves the properties stated for them.

    Conventions of the embedding.
    - A Python [str] is a [string]; its characters are the code points below
      256.  [infix[i]] is [infix.[i]]; every access of the source is guarded
      by a bound test, which is kept in the definitions.
    - A [collections.deque] used as a stack is a list whose head is the
      right end of the deque: [append] is cons, [pop] removes the head.
    - A Python list that is only appended to is a list extended on the right.
    - Python integers are [Z]. *)

From Stdlib Require Import ZArith String Ascii List Lia Bool.
From stdpp Require Import gmap strings.
Import ListNotations.

Local Open Scope string_scope.
Local Open Scope nat_scope.
Local Open Scope list_scope.

(** ** Strings as Python uses them *)

(** [x in s] for two strings: [x] occurs in [s] as a substring. *)
Fixpoint str_in (x s : string) : bool :=
  String.prefix x s ||
  match s with
  | EmptyString => false
  | String _ s' => str_in x s'
  end.

Arguments str_in : simpl never.

(** A character as the one-character string that [infix[i]] is. *)
Definition str (c : ascii) : string := String c EmptyString.

(** [infix[i]]; all uses are below [length infix]. *)
Definition char_at (infix : string) (i : nat) : ascii :=
  match String.get i infix with
  | Some c => c
  | None => Ascii.zero
  end.

Notation "s .[ i ]" := (char_at s i) (at level 1, format "s .[ i ]").

(** [string.digits] and [string.ascii_letters]. *)
Definition digits : string := "0123456789".
Definition ascii_letters : string :=
  "abcdefghijklmnopqrstuvwxyzABCDEFGHIJKLMNOPQRSTUVWXYZ".

(** [int(c)] for a character of [string.digits]. *)
Definition int_of_digit (c : ascii) : Z :=
  (Z.of_nat (nat_of_ascii c) - 48)%Z.

(** ** Elements of the postfix list

    [rpn_list] mixes integers and strings (operators and variable names). *)
Inductive token : Type :=
| TInt (n : Z)
| TStr (s : string).

(** What [infix_to_rpn] returns: the string ["Error"] or the list. *)
Inductive rpn : Type :=
| Error
| Rpn (l : list token).

(** ** infix_to_rpn *)

Record state : Type := State {
  pos : nat;              (* i *)
  result : list token;    (* result *)
  stack : list string     (* stack, top first *)
}.

(** Outcome of a part of the loop body: [return "Error"] or go on. *)
Inductive phase : Type :=
| Return_Error
| Continue (st : state).

(** [while i < len(infix) and infix[i] in string.digits]: the accumulator
    and the index after the digits.  [n] bounds the number of rounds and is
    [length infix - i] at the call. *)
Fixpoint scan_integer (infix : string) (n i : nat) (integer : Z) : nat * Z :=
  match n with
  | 0 => (i, integer)
  | S n' =>
      if (i <? String.length infix) && str_in (str infix.[i]) digits
      then scan_integer infix n' (i + 1) (integer * 10 + int_of_digit infix.[i])%Z
      else (i, integer)
  end.

(** [while i < len(infix) and infix[i] in string.ascii_letters]. *)
Fixpoint scan_name (infix : string) (n i : nat) (var_name : string) : nat * string :=
  match n with
  | 0 => (i, var_name)
  | S n' =>
      if (i <? String.length infix) && str_in (str infix.[i]) ascii_letters
      then scan_name infix n' (i + 1) (var_name +:+ str infix.[i])
      else (i, var_name)
  end.

(** [while i < len(infix) and infix[i] == "+": i += 1]. *)
Fixpoint skip_pluses (infix : string) (n i : nat) : nat :=
  match n with
  | 0 => i
  | S n' =>
      if (i <? String.length infix) && Ascii.eqb infix.[i] "+"
      then skip_pluses infix n' (i + 1)
      else i
  end.

(** [while i < len(infix) and infix[i] == "-": minuses += 1; i += 1]. *)
Fixpoint count_minuses (infix : string) (n i minuses : nat) : nat * nat :=
  match n with
  | 0 => (i, minuses)
  | S n' =>
      if (i <? String.length infix) && Ascii.eqb infix.[i] "-"
      then count_minuses infix n' (i + 1) (minuses + 1)
      else (i, minuses)
  end.

(** [while stack and p(stack[-1]): result.append(stack.pop())]. *)
Fixpoint pop_while (p : string -> bool) (stack : list string) (result : list token)
  : list string * list token :=
  match stack with
  | top :: below =>
      if p top then pop_while p below (result ++ [TStr top])
      else (stack, result)
  | [] => ([], result)
  end.

(** Lines 82-89: a unary sign at the start, after an operator or after an
    opening parenthesis. *)
Definition unary_sign (infix : string) (st : state) : phase :=
  let i := pos st in
  if str_in (str infix.[i]) "+-" &&
     ((i =? 0) || str_in (str infix.[i - 1]) "^*/+-(")
  then
    if (i =? String.length infix - 1) ||
       (negb (str_in (str infix.[i + 1]) digits) &&
        negb (str_in (str infix.[i + 1]) ascii_letters) &&
        negb (Ascii.eqb infix.[i + 1] "("))
    then Return_Error
    else
      Continue (State (i + 1) (result st)
                      (if Ascii.eqb infix.[i] "-" then "#" :: stack st else stack st))
  else Continue st.

(** Lines 92-112: an integer, a variable name, or an unacceptable symbol. *)
Definition operand (infix : string) (st : state) : phase :=
  let i := pos st in
  if (i <? String.length infix) &&
     (str_in (str infix.[i]) digits || str_in (str infix.[i]) ascii_letters)
  then
    if str_in (str infix.[i]) digits then
      let '(i', integer) := scan_integer infix (String.length infix - i) i 0%Z in
      Continue (State i' (result st ++ [TInt integer]) (stack st))
    else
      let '(i', var_name) := scan_name infix (String.length infix - i) i "" in
      Continue (State i' (result st ++ [TStr var_name]) (stack st))
  else if (i <? String.length infix) && negb (str_in (str infix.[i]) "+-*/^()")
  then Return_Error
  else Continue st.

(** Lines 115-169: an operator or a parenthesis. *)
Definition operator (infix : string) (st : state) : phase :=
  let i := pos st in
  if (i <? String.length infix) && str_in (str infix.[i]) "+-*/^()" then
    if Ascii.eqb infix.[i] "(" then
      Continue (State (i + 1) (result st) ("(" :: stack st))
    else if Ascii.eqb infix.[i] "+" then
      let '(stack', result') :=
        pop_while (fun top => str_in top "+-*/^#") (stack st) (result st) in
      Continue (State (skip_pluses infix (String.length infix - i) i)
                      result' ("+" :: stack'))
    else if Ascii.eqb infix.[i] "-" then
      let '(stack', result') :=
        pop_while (fun top => str_in top "+-*/^#") (stack st) (result st) in
      let '(i', minuses) := count_minuses infix (String.length infix - i) i 0 in
      if negb (minuses mod 2 =? 0)
      then Continue (State i' result' ("-" :: stack'))
      else Continue (State i' result' ("+" :: stack'))
    else if str_in (str infix.[i]) "*/" then
      if (i <? String.length infix - 1) && Ascii.eqb infix.[i + 1] infix.[i]
      then Return_Error
      else
        let '(stack', result') :=
          pop_while (fun top => str_in top "*/^#") (stack st) (result st) in
        Continue (State (i + 1) result' (str infix.[i] :: stack'))
    else if Ascii.eqb infix.[i] "^" then
      if (i <? String.length infix - 1) && Ascii.eqb infix.[i + 1] infix.[i]
      then Return_Error
      else
        let '(stack', result') :=
          pop_while (fun top => String.eqb top "^#") (stack st) (result st) in
        Continue (State (i + 1) result' (str infix.[i] :: stack'))
    else if Ascii.eqb infix.[i] ")" then
      let '(stack', result') :=
        pop_while (fun top => negb (String.eqb top "(")) (stack st) (result st) in
      match stack' with
      | [] => Return_Error
      | _ :: below => Continue (State (i + 1) result' below)
      end
    else Continue st
  else Continue st.

(** One iteration of the [while i < len(infix)] loop. *)
Definition iteration (infix : string) (st : state) : phase :=
  match unary_sign infix st with
  | Return_Error => Return_Error
  | Continue st1 =>
      match operand infix st1 with
      | Return_Error => Return_Error
      | Continue st2 => operator infix st2
      end
  end.

(** Lines 172-177: the operators left on the stack go to the result; an
    opening parenthesis among them is an error. *)
Fixpoint drain (stack : list string) (result : list token) : rpn :=
  match stack with
  | [] => Rpn result
  | top :: below =>
      if String.eqb top "(" then Error
      else drain below (result ++ [TStr top])
  end.

(** The loop with a bound on the number of iterations: [None] when the
    bound is reached while [i < len(infix)] still holds. *)
Fixpoint scan (infix : string) (fuel : nat) (st : state) : option rpn :=
  if pos st <? String.length infix then
    match fuel with
    | 0 => None
    | S fuel' =>
        match iteration infix st with
        | Return_Error => Some Error
        | Continue st' => scan infix fuel' st'
        end
    end
  else Some (drain (stack st) (result st)).

Definition initial : state := State 0 [] [].

(** [infix_to_rpn]: [length infix] iterations always suffice (see
    [scan_enough]); the second branch is never taken. *)
Definition infix_to_rpn (infix : string) : rpn :=
  match scan infix (String.length infix) initial with
  | Some r => r
  | None => Error
  end.

(** ** Values, exceptions and the variable table *)

(** The objects that reach the evaluation stack and the dictionary: integers
    and strings ([rpn_to_result] returns its messages and the empty result
    as strings). *)
Inductive value : Type :=
| VInt (z : Z)
| VStr (s : string).

(** Exceptions the interpreter raises in the modelled code. *)
Inductive exn : Type :=
| TypeError
| ZeroDivisionError
| IndexError.

(** Result of a computation: a value, an exception that nothing catches, or
    [Float]: an integer power with a negative exponent and a base other than
    zero, whose result in Python is a float.  Binary floating point is not
    modelled, and a run is not followed past that point. *)
Inductive outcome (A : Type) : Type :=
| Value (a : A)
| Raised (e : exn)
| Float.
Arguments Value {A} a.
Arguments Raised {A} e.
Arguments Float {A}.

(** [s * n] for a string and an integer: [n] copies, none when [n <= 0]. *)
Fixpoint repeat_str (n : nat) (s : string) : string :=
  match n with
  | 0 => ""
  | S n' => s +:+ repeat_str n' s
  end.

(** [x + y] *)
Definition py_add (x y : value) : outcome value :=
  match x, y with
  | VInt a, VInt b => Value (VInt (a + b))
  | VStr a, VStr b => Value (VStr (a +:+ b))
  | _, _ => Raised TypeError
  end.

(** [x * y] *)
Definition py_mul (x y : value) : outcome value :=
  match x, y with
  | VInt a, VInt b => Value (VInt (a * b))
  | VInt a, VStr s | VStr s, VInt a => Value (VStr (repeat_str (Z.to_nat a) s))
  | VStr _, VStr _ => Raised TypeError
  end.

(** [x - y] *)
Definition py_sub (x y : value) : outcome value :=
  match x, y with
  | VInt a, VInt b => Value (VInt (a - b))
  | _, _ => Raised TypeError
  end.

(** [x ** y] *)
Definition py_pow (x y : value) : outcome value :=
  match x, y with
  | VInt a, VInt b =>
      if (0 <=? b)%Z then Value (VInt (a ^ b))
      else if (a =? 0)%Z then Raised ZeroDivisionError
      else Float
  | _, _ => Raised TypeError
  end.

(** [x // y], for [y] that is not the integer zero *)
Definition py_floordiv (x y : value) : outcome value :=
  match x, y with
  | VInt a, VInt b => Value (VInt (a / b))
  | _, _ => Raised TypeError
  end.

(** [x == 0] *)
Definition py_is_zero (x : value) : bool :=
  match x with
  | VInt a => (a =? 0)%Z
  | VStr _ => false
  end.

(** ** rpn_to_result *)

(** What the body of the [for] loop does: [return] a value or go on with
    the stack. *)
Inductive flow : Type :=
| Return (v : value)
| Next (stack : list value).

Definition invalid_expression : value := VStr "Invalid expression".
Definition unknown_variable : value := VStr "Unknown variable".

(** Run an operation and push its result. *)
Definition push (r : outcome value) (stack : list value) : outcome flow :=
  match r with
  | Value v => Value (Next (v :: stack))
  | Raised e => Raised e
  | Float => Float
  end.

(** Lines 195-223, for one element of [rpn_list]. *)
Definition apply_token (variables : gmap string value) (tok : token)
    (stack : list value) : outcome flow :=
  match tok with
  | TInt n => Value (Next (VInt n :: stack))
  | TStr s =>
      if String.eqb s "#" then
        match stack with
        | [] => Value (Return invalid_expression)
        | top :: below => push (py_mul (VInt (-1)) top) below
        end
      else if str_in s "+-*/^" then
        match stack with
        | top :: second :: below =>
            if String.eqb s "+" then push (py_add top second) below
            else if String.eqb s "*" then push (py_mul top second) below
            else if String.eqb s "^" then push (py_pow second top) below
            else if String.eqb s "-" then push (py_sub second top) below
            else if String.eqb s "/" then
              if py_is_zero top then Value (Return invalid_expression)
              else push (py_floordiv second top) below
            else Value (Next stack)
        | _ => Value (Return invalid_expression)
        end
      else
        match variables !! s with
        | Some v => Value (Next (v :: stack))
        | None => Value (Return unknown_variable)
        end
  end.

(** Lines 224-228. *)
Definition finish (stack : list value) : value :=
  if 1 <? length stack then invalid_expression
  else
    match stack with
    | [] => VStr ""
    | top :: _ => top
    end.

Fixpoint eval_loop (variables : gmap string value) (rpn_list : list token)
    (stack : list value) : outcome value :=
  match rpn_list with
  | [] => Value (finish stack)
  | tok :: rest =>
      match apply_token variables tok stack with
      | Value (Return v) => Value v
      | Value (Next stack') => eval_loop variables rest stack'
      | Raised e => Raised e
      | Float => Float
      end
  end.

Definition rpn_to_result (variables : gmap string value) (rpn_list : list token)
  : outcome value :=
  eval_loop variables rpn_list [].

(** ** parse_expression *)

Definition parse_expression (variables : gmap string value) (infix : string)
  : outcome value :=
  match infix_to_rpn infix with
  | Error => Value invalid_expression
  | Rpn rpn_list => rpn_to_result variables rpn_list
  end.

(** ** Output *)

(** [print(x, end=e)]: the object printed and the line ending. *)
Inductive printed : Type :=
| Print (x : value) (ending : string).

Definition newline : string := String (ascii_of_nat 10) "".

(** [print(message)] *)
Definition say (message : string) : printed := Print (VStr message) newline.

(** ** parse_command *)

(** The double quote character. *)
Definition quote : string := String (ascii_of_nat 34) "".

Definition parse_command (line : string) : list printed :=
  if String.eqb line "/exit" then [say "Bye!"]
  else if String.eqb line "/help" then
    [say "This calculator evaluates expressions with addition, subtraction,";
     say "multiplication, division, power, unary operators and parenthesis.";
     say "It can also assign and use variables. Variable names can contain only";
     say ("Latin letters. Type " +:+ quote +:+ "/exit" +:+ quote +:+ " to quit.")]
  else [say "Unknown command"].

(** ** parse_assignment *)

(** [line.split("=", 1)]: the parts before and after the first ["="], or the
    line alone when it has none. *)
Fixpoint split_assignment (line : string) : list string :=
  match line with
  | EmptyString => [""]
  | String c rest =>
      if Ascii.eqb c "=" then [""; rest]
      else
        match split_assignment rest with
        | first :: others => String c first :: others
        | [] => [str c]
        end
  end.

(** The letters among the code points below 256 (Unicode categories Lu, Ll
    and Lo), as [str.isalpha] sees them. *)
Definition alphabetic (c : ascii) : bool :=
  let n := nat_of_ascii c in
  ((65 <=? n) && (n <=? 90)) || ((97 <=? n) && (n <=? 122)) ||
  (n =? 170) || (n =? 181) || (n =? 186) ||
  ((192 <=? n) && (n <=? 214)) || ((216 <=? n) && (n <=? 246)) ||
  ((248 <=? n) && (n <=? 255)).

Fixpoint all_alphabetic (s : string) : bool :=
  match s with
  | EmptyString => true
  | String c rest => alphabetic c && all_alphabetic rest
  end.

(** [s.isalpha()]: at least one character, all of them letters. *)
Definition isalpha (s : string) : bool :=
  negb (String.eqb s "") && all_alphabetic s.

(** [result in ("Invalid expression", "Unknown variable")] *)
Definition is_error_message (result : value) : bool :=
  match result with
  | VStr s => String.eqb s "Invalid expression" || String.eqb s "Unknown variable"
  | VInt _ => false
  end.

(** [name in variables] *)
Definition contains (variables : gmap string value) (name : string) : bool :=
  match variables !! name with
  | Some _ => true
  | None => false
  end.

(** [parse_assignment]: the dictionary after the call and what was printed. *)
Definition parse_assignment (variables : gmap string value) (line : string)
  : outcome (gmap string value * list printed) :=
  match split_assignment line with
  | [] => Raised IndexError
  | line0 :: others =>
      if String.eqb line0 "" then Value (variables, [say "Invalid expression"])
      else if negb (isalpha line0) then Value (variables, [say "Invalid identifier"])
      else
        match others with
        | [] => Raised IndexError
        | line1 :: _ =>
            if String.eqb line1 "" then Value (variables, [say "Invalid assignment"])
            else if isalpha line1 && negb (contains variables line1)
            then Value (variables, [say "Unknown variable"])
            else
              match parse_expression variables line1 with
              | Value result =>
                  if is_error_message result
                  then Value (variables, [say "Invalid assignment"])
                  else Value (<[line0 := result]> variables, [])
              | Raised e => Raised e
              | Float => Float
              end
        end
  end.

(** ** The main loop, for one line read *)

(** The white space of [str.split()] among the code points below 256. *)
Definition whitespace (c : ascii) : bool :=
  let n := nat_of_ascii c in
  ((9 <=? n) && (n <=? 13)) || ((28 <=? n) && (n <=? 32)) ||
  (n =? 133) || (n =? 160).

(** ["".join(raw.split())] *)
Fixpoint remove_whitespace (raw : string) : string :=
  match raw with
  | EmptyString => ""
  | String c rest =>
      if whitespace c then remove_whitespace rest
      else String c (remove_whitespace rest)
  end.

(** Truth value of a result, as [if result] takes it. *)
Definition truthy (x : value) : bool :=
  match x with
  | VInt z => negb (z =? 0)%Z
  | VStr s => negb (String.eqb s "")
  end.

(** Lines 234-242: the body of the main loop for the text [raw] that
    [input()] returned. *)
Definition main_step (variables : gmap string value) (raw : string)
  : outcome (gmap string value * list printed) :=
  let line := remove_whitespace raw in
  if negb (String.eqb line "") then
    if String.prefix "/" line then Value (variables, parse_command line)
    else if str_in "=" line then parse_assignment variables line
    else
      match parse_expression variables line with
      | Value result =>
          Value (variables, [Print result (if truthy result then newline else "")])
      | Raised e => Raised e
      | Float => Float
      end
  else Value (variables, []).

(** The dictionaries a session can reach: [variables = {}] at the start,
    then one line after another, as long as no exception ends the run.  The
    line [/exit], after which the loop stops, leaves the dictionary as it
    is. *)
Inductive reachable : gmap string value -> Prop :=
| reachable_start : reachable ∅
| reachable_step variables raw variables' out :
    reachable variables ->
    main_step variables raw = Value (variables', out) ->
    reachable variables'.

(** * Well-formed expressions and their arithmetic

    The infix expressions built from integer literals, the binary operators
    [+ - * / ^] and parentheses, with the usual grammar: [^] binds tighter
    than [*] and [/], which bind tighter than [+] and [-]; operators of one
    level group from the left, [^] from the right. *)

Inductive digit : Type := D0 | D1 | D2 | D3 | D4 | D5 | D6 | D7 | D8 | D9.

Definition digit_char (d : digit) : ascii :=
  match d with
  | D0 => "0" | D1 => "1" | D2 => "2" | D3 => "3" | D4 => "4"
  | D5 => "5" | D6 => "6" | D7 => "7" | D8 => "8" | D9 => "9"
  end%char.

Definition digit_value (d : digit) : Z :=
  match d with
  | D0 => 0 | D1 => 1 | D2 => 2 | D3 => 3 | D4 => 4
  | D5 => 5 | D6 => 6 | D7 => 7 | D8 => 8 | D9 => 9
  end%Z.

(** The characters of a numeral. *)
Fixpoint numeral_text (ds : list digit) : string :=
  match ds with
  | [] => ""
  | d :: ds' => String (digit_char d) (numeral_text ds')
  end.

(** The number a decimal numeral stands for: each digit counts for its
    position. *)
Fixpoint numeral_value (ds : list digit) : Z :=
  match ds with
  | [] => 0
  | d :: ds' => digit_value d * 10 ^ Z.of_nat (length ds') + numeral_value ds'
  end%Z.

Inductive atom : Type :=
| Lit (d : digit) (ds : list digit)
| Paren (e : expr)
with power : Type :=
| PAtom (a : atom)
| Pow (a : atom) (p : power)
with term : Type :=
| TPower (p : power)
| Mul (t : term) (p : power)
| Div (t : term) (p : power)
with expr : Type :=
| ETerm (t : term)
| Add (e : expr) (t : term)
| Sub (e : expr) (t : term).

(** The text of an expression. *)
Fixpoint text_atom (a : atom) : string :=
  match a with
  | Lit d ds => numeral_text (d :: ds)
  | Paren e => "(" +:+ text_expr e +:+ ")"
  end
with text_power (p : power) : string :=
  match p with
  | PAtom a => text_atom a
  | Pow a p' => text_atom a +:+ "^" +:+ text_power p'
  end
with text_term (t : term) : string :=
  match t with
  | TPower p => text_power p
  | Mul t' p => text_term t' +:+ "*" +:+ text_power p
  | Div t' p => text_term t' +:+ "/" +:+ text_power p
  end
with text_expr (e : expr) : string :=
  match e with
  | ETerm t => text_term t
  | Add e' t => text_expr e' +:+ "+" +:+ text_term t
  | Sub e' t => text_expr e' +:+ "-" +:+ text_term t
  end.

(** The value of an expression in integer arithmetic: [None] when a divisor
    is zero or an exponent negative, where the integers have no value for
    it.  Division rounds down, as the calculator defines it. *)
Fixpoint denote_atom (a : atom) : option Z :=
  match a with
  | Lit d ds => Some (numeral_value (d :: ds))
  | Paren e => denote_expr e
  end
with denote_power (p : power) : option Z :=
  match p with
  | PAtom a => denote_atom a
  | Pow a p' =>
      match denote_atom a, denote_power p' with
      | Some x, Some y => if (0 <=? y)%Z then Some (x ^ y)%Z else None
      | _, _ => None
      end
  end
with denote_term (t : term) : option Z :=
  match t with
  | TPower p => denote_power p
  | Mul t' p =>
      match denote_term t', denote_power p with
      | Some x, Some y => Some (x * y)%Z
      | _, _ => None
      end
  | Div t' p =>
      match denote_term t', denote_power p with
      | Some x, Some y => if (y =? 0)%Z then None else Some (x / y)%Z
      | _, _ => None
      end
  end
with denote_expr (e : expr) : option Z :=
  match e with
  | ETerm t => denote_term t
  | Add e' t =>
      match denote_expr e', denote_term t with
      | Some x, Some y => Some (x + y)%Z
      | _, _ => None
      end
  | Sub e' t =>
      match denote_expr e', denote_term t with
      | Some x, Some y => Some (x - y)%Z
      | _, _ => None
      end
  end.

(** The postfix form of an expression: operands first, then the operator. *)
Fixpoint postfix_atom (a : atom) : list token :=
  match a with
  | Lit d ds => [TInt (numeral_value (d :: ds))]
  | Paren e => postfix_expr e
  end
with postfix_power (p : power) : list token :=
  match p with
  | PAtom a => postfix_atom a
  | Pow a p' => postfix_atom a ++ postfix_power p' ++ [TStr "^"]
  end
with postfix_term (t : term) : list token :=
  match t with
  | TPower p => postfix_power p
  | Mul t' p => postfix_term t' ++ postfix_power p ++ [TStr "*"]
  | Div t' p => postfix_term t' ++ postfix_power p ++ [TStr "/"]
  end
with postfix_expr (e : expr) : list token :=
  match e with
  | ETerm t => postfix_term t
  | Add e' t => postfix_expr e' ++ postfix_term t ++ [TStr "+"]
  | Sub e' t => postfix_expr e' ++ postfix_term t ++ [TStr "-"]
  end.

(** While an expression is being read, part of its postfix form is in the
    result already ([emitted_]) and the operators still to come are on the
    stack ([pending_], top first). *)
Fixpoint emitted_power (p : power) : list token :=
  match p with
  | PAtom a => postfix_atom a
  | Pow a p' => postfix_atom a ++ emitted_power p'
  end.

Fixpoint pending_power (p : power) : list string :=
  match p with
  | PAtom _ => []
  | Pow _ p' => pending_power p' ++ ["^"]
  end.

Definition emitted_term (t : term) : list token :=
  match t with
  | TPower p => emitted_power p
  | Mul t' p | Div t' p => postfix_term t' ++ emitted_power p
  end.

Definition pending_term (t : term) : list string :=
  match t with
  | TPower p => pending_power p
  | Mul _ p => pending_power p ++ ["*"]
  | Div _ p => pending_power p ++ ["/"]
  end.

Definition emitted_expr (e : expr) : list token :=
  match e with
  | ETerm t => emitted_term t
  | Add e' t | Sub e' t => postfix_expr e' ++ emitted_term t
  end.

Definition pending_expr (e : expr) : list string :=
  match e with
  | ETerm t => pending_term t
  | Add _ t => pending_term t ++ ["+"]
  | Sub _ t => pending_term t ++ ["-"]
  end.

Scheme atom_mut := Induction for atom Sort Prop
  with power_mut := Induction for power Sort Prop
  with term_mut := Induction for term Sort Prop
  with expr_mut := Induction for expr Sort Prop.
Combined Scheme grammar_mut from atom_mut, power_mut, term_mut, expr_mut.

(** ** Runs of the conversion loop *)

(** The loop started in [st] returns [r]. *)
Definition converges (infix : string) (st : state) (r : rpn) : Prop :=
  exists fuel, scan infix fuel st = Some r.

(** The body resumed in [st] at its operator part, and the loop after it,
    return [r]. *)
Definition resumes (infix : string) (st : state) (r : rpn) : Prop :=
  match operator infix st with
  | Return_Error => r = Error
  | Continue st' => converges infix st' r
  end.

(** The top of the stack, when there is one, is among [allowed]. *)
Definition top_in (allowed : list string) (stack : list string) : Prop :=
  match stack with
  | [] => True
  | top :: _ => In top allowed
  end.

(** What may come after an operand: the end, an operator or a closing
    parenthesis. *)
Definition follows (rest : string) : Prop :=
  match rest with
  | EmptyString => True
  | String c _ => In c [")"; "+"; "-"; "*"; "/"; "^"]%char
  end.

(** The next character, if any, is [c]. *)
Definition next_is (c : ascii) (rest : string) : bool :=
  match rest with
  | EmptyString => false
  | String d _ => Ascii.eqb d c
  end.

(** [k] minus signs. *)
Fixpoint minuses_text (k : nat) : string :=
  match k with
  | 0 => ""
  | S k' => String "-" (minuses_text k')
  end.

(** An operand starts with a digit or an opening parenthesis. *)
Definition operand_start (s : string) : Prop :=
  exists c s', s = String c s' /\ (str_in (str c) digits = true \/ c = "("%char).

(** A run of minus signs between two operands: one operator, by the
    parity of the run. *)
Definition collapsed (k : nat) : string :=
  if negb (k mod 2 =? 0) then "-" else "+".

(** Reading an expression at index [i], with [out] in the result and [stk]
    on the stack, leads to the state in which what has been emitted is in
    the result and the operators still to come are on the stack; [r] is what
    the conversion returns from there. *)
Definition reads_atom (a : atom) : Prop :=
  forall infix pre rest i out stk r,
    infix = pre +:+ text_atom a +:+ rest -> i = String.length pre -> follows rest ->
    resumes infix (State (i + String.length (text_atom a)) (out ++ postfix_atom a) stk) r ->
    converges infix (State i out stk) r.

Definition reads_power (p : power) : Prop :=
  forall infix pre rest i out stk r,
    infix = pre +:+ text_power p +:+ rest -> i = String.length pre -> follows rest ->
    top_in ["("; "+"; "-"; "*"; "/"; "^"] stk ->
    resumes infix (State (i + String.length (text_power p)) (out ++ emitted_power p)
                         (pending_power p ++ stk)) r ->
    converges infix (State i out stk) r.

Definition reads_term (t : term) : Prop :=
  forall infix pre rest i out stk r,
    infix = pre +:+ text_term t +:+ rest -> i = String.length pre -> follows rest ->
    top_in ["("; "+"; "-"] stk ->
    resumes infix (State (i + String.length (text_term t)) (out ++ emitted_term t)
                         (pending_term t ++ stk)) r ->
    converges infix (State i out stk) r.

Definition reads_expr (e : expr) : Prop :=
  forall infix pre rest i out stk r,
    infix = pre +:+ text_expr e +:+ rest -> i = String.length pre -> follows rest ->
    top_in ["("] stk ->
    resumes infix (State (i + String.length (text_expr e)) (out ++ emitted_expr e)
                         (pending_expr e ++ stk)) r ->
    converges infix (State i out stk) r.

(** Evaluating the postfix list [post] pushes the integer [v]. *)
Definition evaluates (variables : gmap string value) (post : list token) (v : Z) : Prop :=
  forall rest stack,
    eval_loop variables (post ++ rest) stack =
    eval_loop variables rest (VInt v :: stack).

(** ** Shapes of the input and of the postfix list *)

(** A character the conversion has a rule for. *)
Definition acceptable (c : ascii) : bool :=
  str_in (str c) digits || str_in (str c) ascii_letters || str_in (str c) "+-*/^()".

(** A character that may follow a unary sign. *)
Definition operand_char (c : ascii) : bool :=
  str_in (str c) digits || str_in (str c) ascii_letters || Ascii.eqb c "(".

(** The character at [j] is followed by a copy of itself. *)
Definition doubled (infix : string) (j : nat) : bool :=
  (j + 1 <? String.length infix) && Ascii.eqb infix.[j + 1] infix.[j].

(** A sign at the start of the input or right after [^], [*], [/] or [(]. *)
Definition leading_sign (infix : string) (j : nat) : bool :=
  str_in (str infix.[j]) "+-" && ((j =? 0) || str_in (str infix.[j - 1]) "^*/(").

(** Opening minus closing parentheses among the first [j] characters. *)
Fixpoint depth (infix : string) (j : nat) : Z :=
  match j with
  | 0 => 0%Z
  | S j' =>
      (depth infix j' +
       (if Ascii.eqb infix.[j'] "(" then 1
        else if Ascii.eqb infix.[j'] ")" then -1 else 0))%Z
  end.

(** The opening parentheses on the operator stack. *)
Fixpoint opening (stack : list string) : nat :=
  match stack with
  | [] => 0
  | top :: below => (if String.eqb top "(" then 1 else 0) + opening below
  end.

(** A name made of the letters of [string.ascii_letters]. *)
Fixpoint ascii_letters_only (s : string) : bool :=
  match s with
  | EmptyString => true
  | String c rest => str_in (str c) ascii_letters && ascii_letters_only rest
  end.

Definition ascii_name (s : string) : bool :=
  negb (String.eqb s "") && ascii_letters_only s.

(** The entries of the operator stack. *)
Definition stack_entry (s : string) : Prop :=
  In s ["#"; "("; "+"; "-"; "*"; "/"; "^"].

(** The elements of a postfix list: an integer that is not negative, one of
    the operators, [#] for the unary minus among them, or a name. *)
Definition postfix_token (tok : token) : Prop :=
  match tok with
  | TInt n => (0 <= n)%Z
  | TStr s => In s ["#"; "+"; "-"; "*"; "/"; "^"] \/ ascii_name s = true
  end.

(** A dictionary that holds integers only. *)
Definition integers_only (variables : gmap string value) : Prop :=
  forall name v, variables !! name = Some v -> exists z, v = VInt z.

(** The results [rpn_to_result] has for a dictionary of integers. *)
Definition integer_result (r : outcome value) : Prop :=
  match r with
  | Value (VInt _) => True
  | Value (VStr s) => In s [""; "Invalid expression"; "Unknown variable"]
  | Float => True
  | Raised ZeroDivisionError => True
  | Raised _ => False
  end.


(** The two properties the conversion keeps: what is on the stack and what
    is in the result. *)
Definition emits_well (st : state) : Prop :=
  Forall stack_entry (stack st) /\ Forall postfix_token (result st).

(** The kinds of characters the conversion tells apart. *)
Inductive kind : Type :=
| KDigit | KLetter | KPlus | KMinus | KStar | KSlash | KCaret | KOpen | KClose | KOther.

Definition kind_of (c : ascii) : kind :=
  if str_in (str c) digits then KDigit
  else if str_in (str c) ascii_letters then KLetter
  else if Ascii.eqb c "+" then KPlus
  else if Ascii.eqb c "-" then KMinus
  else if Ascii.eqb c "*" then KStar
  else if Ascii.eqb c "/" then KSlash
  else if Ascii.eqb c "^" then KCaret
  else if Ascii.eqb c "(" then KOpen
  else if Ascii.eqb c ")" then KClose
  else KOther.

(** The tests of the source on a character, by its kind. *)
Definition kind_tests (c : ascii) : Prop :=
  let k := kind_of c in
  str_in (str c) digits = match k with KDigit => true | _ => false end /\
  str_in (str c) ascii_letters = match k with KLetter => true | _ => false end /\
  str_in (str c) "+-" = match k with KPlus | KMinus => true | _ => false end /\
  str_in (str c) "*/" = match k with KStar | KSlash => true | _ => false end /\
  str_in (str c) "*/^" = match k with KStar | KSlash | KCaret => true | _ => false end /\
  str_in (str c) "+-*/^()" =
    match k with KDigit | KLetter | KOther => false | _ => true end /\
  str_in (str c) "^*/+-(" =
    match k with KDigit | KLetter | KOther | KClose => false | _ => true end /\
  str_in (str c) "^*/(" =
    match k with KStar | KSlash | KCaret | KOpen => true | _ => false end /\
  Ascii.eqb c "+" = match k with KPlus => true | _ => false end /\
  Ascii.eqb c "-" = match k with KMinus => true | _ => false end /\
  Ascii.eqb c "^" = match k with KCaret => true | _ => false end /\
  Ascii.eqb c "(" = match k with KOpen => true | _ => false end /\
  Ascii.eqb c ")" = match k with KClose => true | _ => false end.

(** What the conversion requires of the character at [j]: a rule for it,
    no copy of it right after [*], [/] or [^], and an operand right after a
    sign that starts the input or follows [^], [*], [/] or [(]. *)
Definition well_placed (infix : string) (j : nat) : bool :=
  acceptable infix.[j] &&
  (if str_in (str infix.[j]) "*/^" then negb (doubled infix j) else true) &&
  (if leading_sign infix j
   then (j + 1 <? String.length infix) && operand_char infix.[j + 1]
   else true).


(** An integer among the values. *)
Definition is_integer (v : value) : Prop :=
  match v with
  | VInt _ => True
  | VStr _ => False
  end.

(** A text of white space only. *)
Fixpoint all_whitespace (s : string) : bool :=
  match s with
  | EmptyString => true
  | String c rest => whitespace c && all_whitespace rest
  end.

(** The exception is no type error and no index error. *)
Definition arithmetic_only {A : Type} (r : outcome A) : Prop :=
  match r with
  | Raised TypeError | Raised IndexError => False
  | _ => True
  end.


(** * Termination of the conversion *)

Section Progress.

Variable infix : string.

Lemma scan_integer_ge n i integer :
  i <= fst (scan_integer infix n i integer).
Proof.
  revert i integer. induction n as [|n IH]; intros i integer; simpl; [lia|].
  destruct (_ && _); simpl; [|lia].
  specialize (IH (i + 1) (integer * 10 + int_of_digit infix.[i])%Z). lia.
Qed.

Lemma scan_name_ge n i var_name :
  i <= fst (scan_name infix n i var_name).
Proof.
  revert i var_name. induction n as [|n IH]; intros i var_name; simpl; [lia|].
  destruct (_ && _); simpl; [|lia].
  specialize (IH (i + 1) (var_name +:+ str infix.[i])). lia.
Qed.

Lemma skip_pluses_ge n i : i <= skip_pluses infix n i.
Proof.
  revert i. induction n as [|n IH]; intros i; simpl; [lia|].
  destruct (_ && _); [|lia]. specialize (IH (i + 1)). lia.
Qed.

Lemma count_minuses_ge n i minuses :
  i <= fst (count_minuses infix n i minuses).
Proof.
  revert i minuses. induction n as [|n IH]; intros i minuses; simpl; [lia|].
  destruct (_ && _); simpl; [|lia].
  specialize (IH (i + 1) (minuses + 1)). lia.
Qed.

(** The unary part never moves the index back. *)
Lemma unary_sign_pos st st' :
  unary_sign infix st = Continue st' -> pos st <= pos st'.
Proof.
  unfold unary_sign. destruct (_ && _); [destruct (_ || _)|];
    intros H; inversion H; simpl; lia.
Qed.

(** The operand part never moves the index back. *)
Lemma operand_pos st st' :
  operand infix st = Continue st' -> pos st <= pos st'.
Proof.
  unfold operand. destruct (_ && _).
  - destruct (str_in _ digits).
    + pose proof (scan_integer_ge (String.length infix - pos st) (pos st) 0%Z) as Hge.
      destruct (scan_integer _ _ _ _) as [i' integer].
      intros H; inversion H; simpl in *; lia.
    + pose proof (scan_name_ge (String.length infix - pos st) (pos st) "") as Hge.
      destruct (scan_name _ _ _ _) as [i' var_name].
      intros H; inversion H; simpl in *; lia.
  - destruct (_ && _); intros H; inversion H; lia.
Qed.

(** On an integer or a name the operand part moves the index forward. *)
Lemma operand_progress st st' :
  pos st < String.length infix ->
  str_in (str infix.[pos st]) digits || str_in (str infix.[pos st]) ascii_letters = true ->
  operand infix st = Continue st' -> pos st < pos st'.
Proof.
  intros Hlt Hclass. unfold operand.
  apply Nat.ltb_lt in Hlt as Hltb. rewrite Hltb, Hclass. cbn [andb].
  destruct (String.length infix - pos st) as [|n] eqn:Hn; [lia|].
  destruct (str_in (str infix.[pos st]) digits) eqn:Hd.
  - cbn [scan_integer]. rewrite Hltb, Hd. cbn [andb].
    pose proof (scan_integer_ge n (pos st + 1)
                  (0 * 10 + int_of_digit infix.[pos st])%Z) as Hge.
    destruct (scan_integer _ _ _ _) as [i' integer].
    intros H; inversion H; cbn [fst pos] in *; lia.
  - cbn [orb] in Hclass. cbn [scan_name]. rewrite Hltb, Hclass. cbn [andb].
    pose proof (scan_name_ge n (pos st + 1) ("" +:+ str infix.[pos st])) as Hge.
    destruct (scan_name _ _ _ _) as [i' var_name].
    intros H; inversion H; cbn [fst pos] in *; lia.
Qed.

(** On an operator or a parenthesis the operator part moves the index
    forward, when it does not return the error. *)
Lemma operator_progress st st' :
  pos st < String.length infix ->
  str_in (str infix.[pos st]) "+-*/^()" = true ->
  operator infix st = Continue st' -> pos st < pos st'.
Proof.
  intros Hlt Hclass. unfold operator.
  apply Nat.ltb_lt in Hlt as Hltb. rewrite Hltb, Hclass. cbn [andb].
  destruct (String.length infix - pos st) as [|n] eqn:Hn; [lia|].
  destruct (Ascii.eqb infix.[pos st] "(") eqn:E1.
  { intros H; inversion H; cbn [pos]; lia. }
  destruct (Ascii.eqb infix.[pos st] "+") eqn:E2.
  { destruct (pop_while _ _ _) as [stack' result'].
    cbn [skip_pluses]. rewrite Hltb, E2. cbn [andb].
    pose proof (skip_pluses_ge n (pos st + 1)).
    intros H'; inversion H'; cbn [pos]; lia. }
  destruct (Ascii.eqb infix.[pos st] "-") eqn:E3.
  { destruct (pop_while _ _ _) as [stack' result'].
    cbn [count_minuses]. rewrite Hltb, E3. cbn [andb].
    pose proof (count_minuses_ge n (pos st + 1) (0 + 1)) as Hge.
    destruct (count_minuses _ _ _ _) as [i' minuses].
    destruct (negb _); intros H'; inversion H'; cbn [fst pos] in *; lia. }
  destruct (str_in (str infix.[pos st]) "*/") eqn:E4.
  { destruct (_ && _); [discriminate|].
    destruct (pop_while _ _ _) as [stack' result'].
    intros H'; inversion H'; simpl; lia. }
  destruct (Ascii.eqb infix.[pos st] "^") eqn:E5.
  { destruct (_ && _); [discriminate|].
    destruct (pop_while _ _ _) as [stack' result'].
    intros H'; inversion H'; simpl; lia. }
  destruct (Ascii.eqb infix.[pos st] ")") eqn:E6.
  { destruct (pop_while _ _ _) as [stack' result'].
    destruct stack'; [discriminate|].
    intros H'; inversion H'; simpl; lia. }
  exfalso. revert Hclass E1 E2 E3 E4 E5 E6.
  generalize infix.[pos st]. intros c.
  destruct c as [[] [] [] [] [] [] [] []]; vm_compute; congruence.
Qed.

Lemma operator_pos st st' :
  operator infix st = Continue st' -> pos st <= pos st'.
Proof.
  intros H. destruct (pos st <? String.length infix) eqn:Hlt.
  - destruct (str_in (str infix.[pos st]) "+-*/^()") eqn:Hclass.
    + apply Nat.ltb_lt in Hlt.
      pose proof (operator_progress st st' Hlt Hclass H). lia.
    + unfold operator in H. rewrite Hlt, Hclass in H. inversion H. lia.
  - unfold operator in H. rewrite Hlt in H. inversion H. lia.
Qed.

(** Every iteration that does not return the error moves the index
    forward. *)
Lemma iteration_progress st st' :
  pos st < String.length infix ->
  iteration infix st = Continue st' -> pos st < pos st'.
Proof.
  intros Hlt. unfold iteration.
  destruct (unary_sign infix st) as [|st1] eqn:H1; [discriminate|].
  destruct (operand infix st1) as [|st2] eqn:H2; [discriminate|].
  intros H3.
  pose proof (unary_sign_pos _ _ H1) as P1.
  pose proof (operand_pos _ _ H2) as P2.
  pose proof (operator_pos _ _ H3) as P3.
  destruct (Nat.eq_dec (pos st) (pos st1)) as [E|]; [|lia].
  assert (st1 = st) as ->.
  { unfold unary_sign in H1. destruct (_ && _); [destruct (_ || _)|];
      inversion H1; subst; simpl in *; [lia|reflexivity]. }
  destruct (str_in (str infix.[pos st]) digits || str_in (str infix.[pos st]) ascii_letters)
    eqn:Hclass.
  - pose proof (operand_progress _ _ Hlt Hclass H2). lia.
  - assert (st2 = st) as ->.
    { unfold operand in H2. rewrite Hclass, andb_false_r in H2.
      destruct (_ && _); inversion H2; reflexivity. }
    apply operator_progress; [assumption| |assumption].
    unfold operand in H2. rewrite Hclass, andb_false_r in H2.
    apply Nat.ltb_lt in Hlt. rewrite Hlt in H2. cbn [andb] in H2.
    destruct (str_in (str infix.[pos st]) "+-*/^()"); [reflexivity|discriminate].
Qed.

(** With as many iterations allowed as characters remain, the loop ends. *)
Lemma scan_enough fuel st :
  String.length infix - pos st <= fuel -> exists r, scan infix fuel st = Some r.
Proof.
  revert st. induction fuel as [|fuel IH]; intros st Hfuel.
  - simpl. destruct (pos st <? String.length infix) eqn:Hlt; [|eauto].
    apply Nat.ltb_lt in Hlt. lia.
  - simpl. destruct (pos st <? String.length infix) eqn:Hlt; [|eauto].
    apply Nat.ltb_lt in Hlt.
    destruct (iteration infix st) as [|st'] eqn:Hit; [eauto|].
    apply IH. pose proof (iteration_progress _ _ Hlt Hit). lia.
Qed.

(** More iterations allowed do not change the result. *)
Lemma scan_more fuel fuel' st r :
  scan infix fuel st = Some r -> fuel <= fuel' -> scan infix fuel' st = Some r.
Proof.
  revert fuel' st. induction fuel as [|fuel IH]; intros fuel' st H Hle.
  - simpl in H. destruct fuel'; simpl;
      destruct (pos st <? String.length infix); congruence.
  - destruct fuel' as [|fuel']; [lia|]. simpl in *.
    destruct (pos st <? String.length infix); [|assumption].
    destruct (iteration infix st); [assumption|].
    apply IH; [assumption|lia].
Qed.

End Progress.

(** The result of the loop, whatever bound shows it. *)
Lemma scan_infix_to_rpn infix fuel r :
  scan infix fuel initial = Some r -> infix_to_rpn infix = r.
Proof.
  intros H. unfold infix_to_rpn.
  destruct (scan_enough infix (String.length infix) initial) as [r' Hr']; [simpl; lia|].
  rewrite Hr'.
  destruct (Nat.le_ge_cases fuel (String.length infix)) as [Hle|Hle].
  - pose proof (scan_more _ _ _ _ _ H Hle). congruence.
  - pose proof (scan_more _ _ _ _ _ Hr' Hle). congruence.
Qed.

(** * The evaluator *)

Section Evaluator.

Variable variables : gmap string value.

(** Floor division: the quotient is the largest integer whose product with
    the divisor does not pass the dividend (on the side of the divisor's
    sign). *)
Lemma floor_quotient (a b : Z) :
  b <> 0%Z ->
  ((b * (a / b) <= a < b * (a / b) + b) \/ (b * (a / b) + b < a <= b * (a / b)))%Z.
Proof.
  intros Hb. destruct (Z.lt_trichotomy b 0) as [Hneg|[Hz|Hpos]]; [|contradiction|].
  - right. pose proof (Z.mod_neg_bound a b Hneg). pose proof (Z.div_mod a b Hb). lia.
  - left. pose proof (Z.mod_pos_bound a b Hpos). pose proof (Z.div_mod a b Hb). lia.
Qed.

Lemma eval_division a b rest stack :
  eval_loop variables (TStr "/" :: rest) (VInt b :: VInt a :: stack) =
  if (b =? 0)%Z then Value invalid_expression
  else eval_loop variables rest (VInt (a / b) :: stack).
Proof.
  cbn [eval_loop]. unfold apply_token.
  replace (String.eqb "/" "#") with false by reflexivity.
  replace (str_in "/" "+-*/^") with true by reflexivity.
  replace (String.eqb "/" "+") with false by reflexivity.
  replace (String.eqb "/" "*") with false by reflexivity.
  replace (String.eqb "/" "^") with false by reflexivity.
  replace (String.eqb "/" "-") with false by reflexivity.
  replace (String.eqb "/" "/") with true by reflexivity.
  cbn [py_is_zero]. destruct (b =? 0)%Z; reflexivity.
Qed.

Lemma eval_power base exponent rest stack :
  (0 <= exponent)%Z ->
  eval_loop variables (TStr "^" :: rest) (VInt exponent :: VInt base :: stack) =
  eval_loop variables rest (VInt (base ^ exponent) :: stack).
Proof.
  intros H. cbn [eval_loop]. unfold apply_token.
  replace (String.eqb "^" "#") with false by reflexivity.
  replace (str_in "^" "+-*/^") with true by reflexivity.
  replace (String.eqb "^" "+") with false by reflexivity.
  replace (String.eqb "^" "*") with false by reflexivity.
  replace (String.eqb "^" "^") with true by reflexivity.
  cbn [py_pow]. apply Z.leb_le in H. rewrite H. reflexivity.
Qed.

Lemma eval_add a b rest stack :
  eval_loop variables (TStr "+" :: rest) (VInt b :: VInt a :: stack) =
  eval_loop variables rest (VInt (a + b) :: stack).
Proof.
  cbn [eval_loop]. unfold apply_token.
  replace (String.eqb "+" "#") with false by reflexivity.
  replace (str_in "+" "+-*/^") with true by reflexivity.
  replace (String.eqb "+" "+") with true by reflexivity.
  cbn [py_add push]. rewrite Z.add_comm. reflexivity.
Qed.

Lemma eval_sub a b rest stack :
  eval_loop variables (TStr "-" :: rest) (VInt b :: VInt a :: stack) =
  eval_loop variables rest (VInt (a - b) :: stack).
Proof. reflexivity. Qed.

Lemma eval_mul a b rest stack :
  eval_loop variables (TStr "*" :: rest) (VInt b :: VInt a :: stack) =
  eval_loop variables rest (VInt (a * b) :: stack).
Proof.
  cbn [eval_loop]. unfold apply_token.
  replace (String.eqb "*" "#") with false by reflexivity.
  replace (str_in "*" "+-*/^") with true by reflexivity.
  replace (String.eqb "*" "+") with false by reflexivity.
  replace (String.eqb "*" "*") with true by reflexivity.
  cbn [py_mul push]. rewrite Z.mul_comm. reflexivity.
Qed.

Lemma eval_int n rest stack :
  eval_loop variables (TInt n :: rest) stack =
  eval_loop variables rest (VInt n :: stack).
Proof. reflexivity. Qed.

End Evaluator.

(** * Positions in a string *)

Lemma str_app_cons c (s t : string) : String c s +:+ t = String c (s +:+ t).
Proof. reflexivity. Qed.

Lemma str_app_assoc (a b c : string) : (a +:+ b) +:+ c = a +:+ b +:+ c.
Proof.
  induction a as [|x a IH]; [reflexivity|].
  rewrite !str_app_cons, IH. reflexivity.
Qed.

Lemma str_app_nil_r (a : string) : a +:+ "" = a.
Proof.
  induction a as [|x a IH]; [reflexivity|]. rewrite str_app_cons, IH. reflexivity.
Qed.

Lemma str_length_app (a b : string) :
  String.length (a +:+ b) = String.length a + String.length b.
Proof.
  induction a as [|x a IH]; [reflexivity|].
  rewrite str_app_cons. cbn [String.length]. rewrite IH. reflexivity.
Qed.

Lemma get_app_here pre c rest :
  String.get (String.length pre) (pre +:+ String c rest) = Some c.
Proof.
  induction pre as [|x pre IH]; [reflexivity|].
  rewrite str_app_cons. cbn [String.length String.get]. exact IH.
Qed.

Lemma get_app_end pre : String.get (String.length pre) pre = None.
Proof. induction pre as [|x pre IH]; [reflexivity|]. exact IH. Qed.

(** Bring a concatenation to its right-nested form and compare. *)
Ltac reassoc :=
  subst; unfold str; rewrite ?str_app_assoc, ?str_app_nil_r; rewrite ?str_app_cons;
  rewrite ?str_app_assoc; reflexivity.

(** Compare two positions given by lengths. *)
Ltac positions :=
  subst; unfold str; rewrite ?str_length_app; cbn [String.length length];
  rewrite ?str_length_app; cbn [String.length length]; lia.

Section View.

Variables (infix pre : string) (i : nat).

(** The character under the index, for an index that stands after [pre]. *)
Lemma view_char c rest :
  infix = pre +:+ String c rest -> i = String.length pre -> infix.[i] = c.
Proof. intros -> ->. unfold char_at. rewrite get_app_here. reflexivity. Qed.

Lemma view_inside c rest :
  infix = pre +:+ String c rest -> i = String.length pre ->
  (i <? String.length infix) = true.
Proof.
  intros -> ->. apply Nat.ltb_lt. rewrite str_length_app. cbn [String.length]. lia.
Qed.

Lemma view_end : infix = pre -> i = String.length pre ->
  (i <? String.length infix) = false.
Proof. intros -> ->. apply Nat.ltb_ge. lia. Qed.

(** The test [i < len(infix) - 1 and infix[i + 1] == x]. *)
Lemma view_lookahead c rest x :
  infix = pre +:+ String c rest -> i = String.length pre ->
  (i <? String.length infix - 1) && Ascii.eqb infix.[i + 1] x = next_is x rest.
Proof.
  intros -> ->. destruct rest as [|d rest]; cbn [next_is].
  - replace (_ <? _) with false; [reflexivity|].
    symmetry. apply Nat.ltb_ge. rewrite str_length_app. cbn [String.length]. lia.
  - replace (_ <? _) with true.
    2:{ symmetry. apply Nat.ltb_lt. rewrite str_length_app. cbn [String.length]. lia. }
    cbn [andb]. unfold char_at.
    replace (pre +:+ String c (String d rest)) with ((pre +:+ str c) +:+ String d rest)
      by (rewrite str_app_assoc; reflexivity).
    replace (String.length pre + 1) with (String.length (pre +:+ str c))
      by (rewrite str_length_app; reflexivity).
    rewrite get_app_here. reflexivity.
Qed.

(** The character before the index. *)
Lemma view_previous pre' c rest :
  infix = pre +:+ rest -> pre = pre' +:+ str c -> i = String.length pre ->
  infix.[i - 1] = c /\ (i =? 0) = false.
Proof.
  intros -> -> ->. rewrite str_length_app. cbn [String.length str]. split.
  - replace (String.length pre' + 1 - 1) with (String.length pre') by lia.
    unfold char_at, str. rewrite str_app_assoc, str_app_cons.
    rewrite get_app_here. reflexivity.
  - apply Nat.eqb_neq. lia.
Qed.

End View.

(** * The parts of the loop body, character by character *)

(** Evaluate the tests on characters and strings that are known. *)
Ltac eval_tests :=
  repeat match goal with
  | |- context [str_in ?x ?s] =>
      let b := eval vm_compute in (str_in x s) in
      match b with
      | true => change (str_in x s) with true
      | false => change (str_in x s) with false
      end
  | |- context [Ascii.eqb ?x ?y] =>
      let b := eval vm_compute in (Ascii.eqb x y) in
      match b with
      | true => change (Ascii.eqb x y) with true
      | false => change (Ascii.eqb x y) with false
      end
  | |- context [String.eqb ?x ?y] =>
      let b := eval vm_compute in (String.eqb x y) in
      match b with
      | true => change (String.eqb x y) with true
      | false => change (String.eqb x y) with false
      end
  end;
  cbn [andb orb negb].

Lemma operator_class_not_operand c :
  str_in (str c) "+-*/^()" = true ->
  str_in (str c) digits = false /\ str_in (str c) ascii_letters = false.
Proof. destruct c as [[] [] [] [] [] [] [] []]; vm_compute; intros; split; congruence. Qed.

Lemma digit_char_class d :
  str_in (str (digit_char d)) digits = true /\
  str_in (str (digit_char d)) "+-" = false /\
  int_of_digit (digit_char d) = digit_value d.
Proof. destruct d; vm_compute; auto. Qed.

Lemma follows_class c rest :
  follows (String c rest) ->
  str_in (str c) "+-*/^()" = true /\ str_in (str c) "^*/+-(" || Ascii.eqb c ")" = true /\
  str_in (str c) digits = false.
Proof.
  cbn [follows In]. intros H.
  repeat (destruct H as [<-|H]; [vm_compute; auto|]). destruct H.
Qed.

Section Body.

Variable infix : string.

Lemma pop_while_pending p pending stk out :
  Forall (fun s => p s = true) pending ->
  match stk with [] => True | top :: _ => p top = false end ->
  pop_while p (pending ++ stk) out = (stk, out ++ map TStr pending).
Proof.
  intros Hall Htop. revert out. induction Hall as [|s pending Hs Hall IH]; intros out.
  - cbn [app map]. rewrite app_nil_r.
    destruct stk as [|top below]; [reflexivity|]. cbn [pop_while]. rewrite Htop. reflexivity.
  - cbn [app pop_while map]. rewrite Hs, IH, <- app_assoc. reflexivity.
Qed.

Lemma pop_while_none p stk out :
  match stk with [] => True | top :: _ => p top = false end ->
  pop_while p stk out = (stk, out).
Proof.
  intros H. pose proof (pop_while_pending p [] stk out (List.Forall_nil _) H) as E.
  cbn [app map] in E. rewrite app_nil_r in E. exact E.
Qed.

(** A run of [k] minus signs is counted whole. *)
Lemma count_minuses_run k : forall pre rest n minuses,
  infix = pre +:+ minuses_text k +:+ rest ->
  next_is "-" rest = false ->
  k <= n ->
  count_minuses infix n (String.length pre) minuses = (String.length pre + k, minuses + k).
Proof.
  induction k as [|k IH]; intros pre rest n minuses Hinfix Hrest Hn.
  - cbn [minuses_text] in Hinfix. change ("" +:+ rest) with rest in Hinfix.
    rewrite !Nat.add_0_r. destruct n as [|n]; [reflexivity|]. cbn [count_minuses].
    destruct rest as [|c rest].
    + rewrite (view_end infix pre); [reflexivity| |reflexivity].
      rewrite Hinfix. apply str_app_nil_r.
    + rewrite (view_char infix pre _ c rest Hinfix eq_refl).
      cbn [next_is] in Hrest. rewrite Hrest, andb_false_r. reflexivity.
  - destruct n as [|n]; [lia|]. cbn [count_minuses].
    cbn [minuses_text] in Hinfix. rewrite str_app_cons in Hinfix.
    rewrite (view_char infix pre _ _ _ Hinfix eq_refl).
    rewrite (view_inside infix pre _ _ _ Hinfix eq_refl).
    change (Ascii.eqb "-" "-") with true. cbn [andb].
    replace (String.length pre + 1) with (String.length (pre +:+ "-")) by positions.
    rewrite (IH (pre +:+ "-") rest n (minuses + 1)); [|reassoc|assumption|lia].
    f_equal; positions.
Qed.

Lemma skip_pluses_one pre rest n :
  infix = pre +:+ String "+" rest ->
  next_is "+" rest = false ->
  skip_pluses infix (S n) (String.length pre) = String.length pre + 1.
Proof.
  intros Hinfix Hrest. cbn [skip_pluses].
  rewrite (view_char infix pre _ _ _ Hinfix eq_refl).
  rewrite (view_inside infix pre _ _ _ Hinfix eq_refl).
  change (Ascii.eqb "+" "+") with true. cbn [andb].
  destruct n as [|n]; [reflexivity|]. cbn [skip_pluses].
  destruct rest as [|c rest].
  - rewrite (view_end infix (pre +:+ "+")); [reflexivity|reassoc|positions].
  - rewrite (view_char infix (pre +:+ "+") _ c rest); [|reassoc|positions].
    cbn [next_is] in Hrest. rewrite Hrest, andb_false_r. reflexivity.
Qed.

(** The digits of a numeral are read whole. *)
Lemma scan_integer_numeral ds : forall pre rest n integer,
  infix = pre +:+ numeral_text ds +:+ rest ->
  match rest with "" => True | String c _ => str_in (str c) digits = false end ->
  length ds <= n ->
  scan_integer infix n (String.length pre) integer =
  (String.length pre + length ds,
   (integer * 10 ^ Z.of_nat (length ds) + numeral_value ds)%Z).
Proof.
  induction ds as [|d ds IH]; intros pre rest n integer Hinfix Hrest Hn.
  - cbn [numeral_text] in Hinfix. change ("" +:+ rest) with rest in Hinfix.
    cbn [length numeral_value]. rewrite Nat.add_0_r.
    replace (integer * 10 ^ Z.of_nat 0 + 0)%Z with integer by (cbn; lia).
    destruct n as [|n]; [reflexivity|]. cbn [scan_integer].
    destruct rest as [|c rest].
    + rewrite (view_end infix pre); [reflexivity| |reflexivity].
      rewrite Hinfix. apply str_app_nil_r.
    + rewrite (view_char infix pre _ c rest Hinfix eq_refl).
      rewrite Hrest, andb_false_r. reflexivity.
  - destruct n as [|n]; [cbn [length] in Hn; lia|]. cbn [scan_integer].
    cbn [numeral_text] in Hinfix. rewrite str_app_cons in Hinfix.
    rewrite (view_char infix pre _ _ _ Hinfix eq_refl).
    rewrite (view_inside infix pre _ _ _ Hinfix eq_refl).
    destruct (digit_char_class d) as (-> & _ & ->). cbn [andb].
    replace (String.length pre + 1) with (String.length (pre +:+ str (digit_char d)))
      by positions.
    rewrite (IH (pre +:+ str (digit_char d)) rest n); [|reassoc|assumption|cbn [length] in Hn; lia].
    cbn [length numeral_value]. f_equal; [positions|].
    rewrite Nat2Z.inj_succ, Z.pow_succ_r by lia. lia.
Qed.

End Body.

Section Steps.

Variables (infix pre : string) (i : nat) (out : list token) (stk : list string).

Hypothesis Hi : i = String.length pre.

(** A character that is no sign leaves the unary part idle. *)
Lemma unary_sign_idle c rest :
  infix = pre +:+ String c rest -> str_in (str c) "+-" = false ->
  unary_sign infix (State i out stk) = Continue (State i out stk).
Proof.
  intros Hinfix Hc. unfold unary_sign. cbn [pos].
  rewrite (view_char infix pre i c rest Hinfix Hi), Hc. reflexivity.
Qed.

(** After a closing parenthesis nothing is a unary sign. *)
Lemma unary_sign_after_close pre' rest :
  infix = pre +:+ rest -> pre = pre' +:+ ")" ->
  unary_sign infix (State i out stk) = Continue (State i out stk).
Proof.
  intros Hinfix Hpre. unfold unary_sign. cbn [pos].
  destruct (view_previous infix pre i pre' ")" rest Hinfix Hpre Hi) as [-> ->].
  eval_tests. rewrite andb_false_r. reflexivity.
Qed.

(** An operator or a parenthesis leaves the operand part idle. *)
Lemma operand_idle c rest :
  infix = pre +:+ String c rest -> str_in (str c) "+-*/^()" = true ->
  operand infix (State i out stk) = Continue (State i out stk).
Proof.
  intros Hinfix Hc. unfold operand. cbn [pos].
  rewrite (view_char infix pre i c rest Hinfix Hi).
  destruct (operator_class_not_operand c Hc) as [-> ->]. rewrite Hc.
  cbn [orb negb]. rewrite !andb_false_r. reflexivity.
Qed.

(** A numeral is read whole and appended to the result. *)
Lemma operand_numeral d ds rest :
  infix = pre +:+ numeral_text (d :: ds) +:+ rest ->
  match rest with "" => True | String c _ => str_in (str c) digits = false end ->
  operand infix (State i out stk) =
  Continue (State (i + length (d :: ds)) (out ++ [TInt (numeral_value (d :: ds))]) stk).
Proof.
  intros Hinfix Hrest. unfold operand. cbn [pos].
  assert (Hview : infix = pre +:+ String (digit_char d) (numeral_text ds +:+ rest))
    by (rewrite Hinfix; reflexivity).
  rewrite (view_char infix pre i _ _ Hview Hi), (view_inside infix pre i _ _ Hview Hi).
  destruct (digit_char_class d) as (-> & _ & _). cbn [andb orb].
  rewrite Hi. rewrite (scan_integer_numeral infix (d :: ds) pre rest); [|assumption..|].
  - reflexivity.
  - rewrite Hinfix, !str_length_app.
    assert (String.length (numeral_text (d :: ds)) = length (d :: ds)) as ->; [|lia].
    clear. induction (d :: ds) as [|x l IH]; [reflexivity|].
    cbn [numeral_text String.length length]. rewrite IH. reflexivity.
Qed.

Lemma operator_open rest :
  infix = pre +:+ String "(" rest ->
  operator infix (State i out stk) = Continue (State (i + 1) out ("(" :: stk)).
Proof.
  intros Hinfix. unfold operator. cbn [pos result stack].
  rewrite (view_char infix pre i _ _ Hinfix Hi), (view_inside infix pre i _ _ Hinfix Hi).
  eval_tests. reflexivity.
Qed.

Lemma operator_close rest pending below :
  infix = pre +:+ String ")" rest ->
  stk = pending ++ "(" :: below ->
  Forall (fun s => s <> "(") pending ->
  operator infix (State i out stk) =
  Continue (State (i + 1) (out ++ map TStr pending) below).
Proof.
  intros Hinfix Hstk Hpending. unfold operator. cbn [pos result stack].
  rewrite (view_char infix pre i _ _ Hinfix Hi), (view_inside infix pre i _ _ Hinfix Hi).
  eval_tests. rewrite Hstk, pop_while_pending; [reflexivity| |reflexivity].
  eapply List.Forall_impl; [|exact Hpending].
  intros s Hs. cbv beta. apply negb_true_iff, String.eqb_neq. exact Hs.
Qed.

Lemma operator_plus rest :
  infix = pre +:+ String "+" rest -> next_is "+" rest = false ->
  operator infix (State i out stk) =
  let '(stack', result') := pop_while (fun top => str_in top "+-*/^#") stk out in
  Continue (State (i + 1) result' ("+" :: stack')).
Proof.
  intros Hinfix Hnext. unfold operator. cbn [pos result stack].
  rewrite (view_char infix pre i _ _ Hinfix Hi), (view_inside infix pre i _ _ Hinfix Hi).
  eval_tests. destruct (pop_while _ _ _) as [stack' result'].
  assert (E : String.length infix - i = S (String.length rest)).
  { rewrite Hinfix, Hi, str_length_app. cbn [String.length]. lia. }
  rewrite E, Hi, (skip_pluses_one infix pre rest _ Hinfix Hnext). reflexivity.
Qed.

Lemma operator_minuses k rest :
  infix = pre +:+ minuses_text (S k) +:+ rest -> next_is "-" rest = false ->
  operator infix (State i out stk) =
  let '(stack', result') := pop_while (fun top => str_in top "+-*/^#") stk out in
  Continue (State (i + S k) result'
                  ((if negb (S k mod 2 =? 0) then "-" else "+") :: stack')).
Proof.
  intros Hinfix Hnext. unfold operator. cbn [pos result stack].
  assert (Hview : infix = pre +:+ String "-" (minuses_text k +:+ rest))
    by (rewrite Hinfix; reflexivity).
  rewrite (view_char infix pre i _ _ Hview Hi), (view_inside infix pre i _ _ Hview Hi).
  eval_tests. destruct (pop_while _ _ _) as [stack' result'].
  rewrite Hi, (count_minuses_run infix (S k) pre rest _ 0 Hinfix Hnext).
  - cbn [Nat.add]. destruct (negb _); reflexivity.
  - rewrite Hinfix, !str_length_app.
    assert (String.length (minuses_text (S k)) = S k) as ->; [|lia].
    clear. induction (S k) as [|n IH]; [reflexivity|].
    cbn [minuses_text String.length]. rewrite IH. reflexivity.
Qed.

Lemma operator_times c rest :
  infix = pre +:+ String c rest -> c = "*"%char \/ c = "/"%char ->
  next_is c rest = false ->
  operator infix (State i out stk) =
  let '(stack', result') := pop_while (fun top => str_in top "*/^#") stk out in
  Continue (State (i + 1) result' (str c :: stack')).
Proof.
  intros Hinfix Hc Hnext. unfold operator. cbn [pos result stack].
  rewrite (view_char infix pre i _ _ Hinfix Hi), (view_inside infix pre i _ _ Hinfix Hi).
  rewrite (view_lookahead infix pre i c rest c Hinfix Hi), Hnext.
  destruct Hc as [-> | ->]; eval_tests; reflexivity.
Qed.

Lemma operator_power rest :
  infix = pre +:+ String "^" rest -> next_is "^" rest = false ->
  operator infix (State i out stk) =
  let '(stack', result') := pop_while (fun top => String.eqb top "^#") stk out in
  Continue (State (i + 1) result' ("^" :: stack')).
Proof.
  intros Hinfix Hnext. unfold operator. cbn [pos result stack].
  rewrite (view_char infix pre i _ _ Hinfix Hi), (view_inside infix pre i _ _ Hinfix Hi).
  rewrite (view_lookahead infix pre i _ rest "^" Hinfix Hi), Hnext.
  eval_tests. reflexivity.
Qed.

End Steps.

(** * Runs of the loop *)

Section Runs.

Variable infix : string.

Lemma converges_end st :
  String.length infix <= pos st ->
  converges infix st (drain (stack st) (result st)).
Proof.
  intros H. exists 0. cbn [scan]. apply Nat.ltb_ge in H. rewrite H. reflexivity.
Qed.

(** An iteration whose unary part is idle: the operand part, then the rest. *)
Lemma converges_operand st st2 r :
  unary_sign infix st = Continue st ->
  operand infix st = Continue st2 ->
  pos st < String.length infix ->
  resumes infix st2 r -> converges infix st r.
Proof.
  intros Hu Ho Hlt Hr. unfold resumes in Hr. apply Nat.ltb_lt in Hlt.
  destruct (operator infix st2) as [|st'] eqn:Hop.
  - exists 1. cbn [scan]. rewrite Hlt. unfold iteration. rewrite Hu, Ho, Hop.
    congruence.
  - destruct Hr as [fuel Hfuel]. exists (S fuel). cbn [scan].
    rewrite Hlt. unfold iteration. rewrite Hu, Ho, Hop. exact Hfuel.
Qed.

(** At the top of the loop, with nothing for the unary and the operand
    parts to do, the body is its operator part. *)
Lemma converges_resumes st r :
  unary_sign infix st = Continue st ->
  operand infix st = Continue st ->
  resumes infix st r -> converges infix st r.
Proof.
  intros Hu Ho Hr. destruct (pos st <? String.length infix) eqn:Hlt.
  - apply Nat.ltb_lt in Hlt. eapply converges_operand; eassumption.
  - unfold resumes, operator in Hr. rewrite Hlt in Hr. exact Hr.
Qed.

Lemma resumes_step st st' r :
  operator infix st = Continue st' -> converges infix st' r -> resumes infix st r.
Proof. intros Hop H. unfold resumes. rewrite Hop. exact H. Qed.

Lemma resumes_end st :
  String.length infix <= pos st ->
  resumes infix st (drain (stack st) (result st)).
Proof.
  intros H. unfold resumes, operator. apply Nat.ltb_ge in H as Hlt. rewrite Hlt.
  apply converges_end. exact H.
Qed.

End Runs.

(** * The conversion of well-formed expressions *)

Lemma operand_start_app s t : operand_start s -> operand_start (s +:+ t).
Proof.
  intros (c & s' & -> & Hc). exists c, (s' +:+ t). split; [reflexivity|exact Hc].
Qed.

Lemma text_atom_start a : operand_start (text_atom a).
Proof.
  destruct a as [d ds|e].
  - exists (digit_char d), (numeral_text ds). split; [reflexivity|].
    left. apply digit_char_class.
  - exists "("%char, (text_expr e +:+ ")"). split; [reflexivity|right; reflexivity].
Qed.

Lemma text_power_start p : operand_start (text_power p).
Proof.
  destruct p; cbn [text_power]; [|apply operand_start_app]; apply text_atom_start.
Qed.

Lemma text_term_start t : operand_start (text_term t).
Proof.
  induction t; cbn [text_term]; [apply text_power_start|..];
    apply operand_start_app; assumption.
Qed.

Lemma text_expr_start e : operand_start (text_expr e).
Proof.
  induction e; cbn [text_expr]; [apply text_term_start|..];
    apply operand_start_app; assumption.
Qed.

(** No operator sign is doubled before an operand. *)
Lemma operand_start_next s t x :
  operand_start s -> In x ["+"; "-"; "*"; "/"; "^"]%char ->
  next_is x (s +:+ t) = false.
Proof.
  intros (c & s' & -> & Hc) Hx. rewrite str_app_cons. cbn [next_is].
  apply Ascii.eqb_neq. intros ->.
  cbn [In] in Hx. destruct Hc as [Hc| ->].
  - repeat (destruct Hx as [<-|Hx]; [vm_compute in Hc; discriminate|]). destruct Hx.
  - repeat (destruct Hx as [Hx|Hx]; [discriminate|]). destruct Hx.
Qed.

Lemma numeral_text_length ds : String.length (numeral_text ds) = length ds.
Proof.
  induction ds as [|d ds IH]; [reflexivity|].
  cbn [numeral_text String.length length]. rewrite IH. reflexivity.
Qed.

(** What is in the result and what waits on the stack make up the postfix
    form. *)
Lemma emitted_pending_power p :
  emitted_power p ++ map TStr (pending_power p) = postfix_power p.
Proof.
  induction p as [a|a p IH]; cbn [emitted_power pending_power postfix_power].
  - apply app_nil_r.
  - rewrite map_app, <- IH, <- !app_assoc. reflexivity.
Qed.

Lemma emitted_pending_term t :
  emitted_term t ++ map TStr (pending_term t) = postfix_term t.
Proof.
  destruct t as [p|t p|t p]; cbn [emitted_term pending_term postfix_term];
    rewrite ?map_app, <- ?emitted_pending_power, <- ?app_assoc; reflexivity.
Qed.

Lemma emitted_pending_expr e :
  emitted_expr e ++ map TStr (pending_expr e) = postfix_expr e.
Proof.
  destruct e as [t|e t|e t]; cbn [emitted_expr pending_expr postfix_expr];
    rewrite ?map_app, <- ?emitted_pending_term, <- ?app_assoc; reflexivity.
Qed.

(** The operators that wait on the stack. *)
Lemma pending_power_class p : Forall (fun s => s = "^") (pending_power p).
Proof.
  induction p as [a|a p IH]; cbn [pending_power]; [constructor|].
  apply Forall_app. split; [exact IH|repeat constructor].
Qed.

Lemma pending_term_class t : Forall (fun s => In s ["^"; "*"; "/"]) (pending_term t).
Proof.
  assert (Hp : forall p, Forall (fun s => In s ["^"; "*"; "/"]) (pending_power p)).
  { intros p. eapply List.Forall_impl; [|apply pending_power_class].
    intros s ->. left. reflexivity. }
  destruct t as [p|t p|t p]; cbn [pending_term]; [apply Hp|..];
    (apply Forall_app; split; [apply Hp|]);
    (constructor; [cbn [In]; auto 7|constructor]).
Qed.

Lemma pending_expr_class e :
  Forall (fun s => In s ["^"; "*"; "/"; "+"; "-"]) (pending_expr e).
Proof.
  assert (Ht : forall t, Forall (fun s => In s ["^"; "*"; "/"; "+"; "-"]) (pending_term t)).
  { intros t. eapply List.Forall_impl; [|apply pending_term_class].
    cbn [In]. intros s H. tauto. }
  destruct e as [t|e t|e t]; cbn [pending_expr]; [apply Ht|..];
    (apply Forall_app; split; [apply Ht|]);
    (constructor; [cbn [In]; auto 7|constructor]).
Qed.

(** Tests of a pop loop on the operators that wait and on the stack below. *)
Lemma class_all (p : string -> bool) allowed pending :
  Forall (fun s => In s allowed) pending ->
  Forall (fun s => p s = true) allowed ->
  Forall (fun s => p s = true) pending.
Proof.
  intros H Hall. eapply List.Forall_impl; [|exact H].
  intros s Hs. cbv beta in *. rewrite List.Forall_forall in Hall. apply Hall, Hs.
Qed.

Lemma class_top (p : string -> bool) allowed stk :
  top_in allowed stk ->
  Forall (fun s => p s = false) allowed ->
  match stk with [] => True | top :: _ => p top = false end.
Proof.
  intros H Hall. destruct stk as [|top below]; [exact I|].
  cbn [top_in] in H. rewrite List.Forall_forall in Hall. apply Hall, H.
Qed.

(** Where an operand has just ended, the operand part has nothing to do. *)
Lemma operand_follows infix pre rest i out stk :
  infix = pre +:+ rest -> i = String.length pre -> follows rest ->
  operand infix (State i out stk) = Continue (State i out stk).
Proof.
  intros Hinfix Hi Hrest. destruct rest as [|c rest].
  - unfold operand. cbn [pos].
    rewrite (view_end infix pre i); [reflexivity| |exact Hi].
    rewrite Hinfix. apply str_app_nil_r.
  - eapply operand_idle; [exact Hi|exact Hinfix|]. apply follows_class in Hrest. tauto.
Qed.

Lemma follows_no_digit rest :
  follows rest ->
  match rest with "" => True | String c _ => str_in (str c) digits = false end.
Proof. destruct rest as [|c rest]; [trivial|]. intros H. apply follows_class in H. tauto. Qed.

(** Use a run that differs from the wanted one in the way its state is
    written only. *)
Ltac same_run H :=
  match type of H with
  | resumes _ ?s1 _ =>
      match goal with
      | |- resumes _ ?s2 _ => replace s2 with s1; [exact H|]
      | |- converges _ ?s2 _ =>
          replace s2 with s1; [|]
      end
  end.

Ltac lists := rewrite <- ?app_assoc; cbn [app]; reflexivity.

Ltac follows_here :=
  unfold str; rewrite ?str_app_cons; cbn [follows top_in In]; auto 8.

Lemma reads_lit d ds : reads_atom (Lit d ds).
Proof.
  intros infix pre rest i out stk r Hinfix Hi Hrest H.
  cbn [text_atom postfix_atom] in *.
  assert (Hview : infix = pre +:+ String (digit_char d) (numeral_text ds +:+ rest))
    by (rewrite Hinfix; reflexivity).
  eapply converges_operand.
  - eapply unary_sign_idle; [exact Hi|exact Hview|apply digit_char_class].
  - eapply operand_numeral; [exact Hi|exact Hinfix|apply follows_no_digit, Hrest].
  - cbn [pos]. apply Nat.ltb_lt. eapply view_inside; eassumption.
  - rewrite numeral_text_length in H. exact H.
Qed.

Lemma reads_paren e : reads_expr e -> reads_atom (Paren e).
Proof.
  intros IH infix pre rest i out stk r Hinfix Hi Hrest H.
  cbn [text_atom postfix_atom] in *.
  assert (Hview : infix = pre +:+ String "(" (text_expr e +:+ ")" +:+ rest)) by reassoc.
  apply converges_resumes.
  { eapply unary_sign_idle; [exact Hi|exact Hview|reflexivity]. }
  { eapply operand_idle; [exact Hi|exact Hview|reflexivity]. }
  eapply resumes_step; [eapply operator_open; [exact Hi|exact Hview]|].
  apply (IH infix (pre +:+ "(") (")" +:+ rest)); [reassoc|positions| | |].
  { follows_here. }
  { follows_here. }
  eapply resumes_step.
  { eapply operator_close with (pre := pre +:+ "(" +:+ text_expr e) (rest := rest)
                               (pending := pending_expr e);
      [positions|reassoc|reflexivity|].
    eapply List.Forall_impl; [|apply pending_expr_class].
    cbn [In]. intros s Hs ->. intuition discriminate. }
  apply converges_resumes.
  { eapply unary_sign_after_close
      with (pre := pre +:+ "(" +:+ text_expr e +:+ ")") (pre' := pre +:+ "(" +:+ text_expr e)
           (rest := rest); [positions|reassoc|reassoc]. }
  { eapply operand_follows with (pre := pre +:+ "(" +:+ text_expr e +:+ ")") (rest := rest);
      [reassoc|positions|exact Hrest]. }
  same_run H. f_equal; [positions|].
  rewrite <- emitted_pending_expr. lists.
Qed.

Lemma reads_patom a : reads_atom a -> reads_power (PAtom a).
Proof.
  intros IH infix pre rest i out stk r Hinfix Hi Hrest Htop H.
  cbn [text_power emitted_power pending_power app] in *.
  eapply IH; eassumption.
Qed.

Lemma reads_pow a p : reads_atom a -> reads_power p -> reads_power (Pow a p).
Proof.
  intros IHa IHp infix pre rest i out stk r Hinfix Hi Hrest Htop H.
  cbn [text_power emitted_power pending_power] in *.
  apply (IHa infix pre ("^" +:+ text_power p +:+ rest)); [reassoc|exact Hi| |].
  { follows_here. }
  eapply resumes_step.
  { rewrite operator_power with (pre := pre +:+ text_atom a) (rest := text_power p +:+ rest);
      [|positions|reassoc|].
    - rewrite pop_while_none; [reflexivity|].
      eapply class_top; [exact Htop|]. repeat constructor.
    - apply operand_start_next; [apply text_power_start|cbn [In]; auto 6]. }
  apply (IHp infix (pre +:+ text_atom a +:+ "^") rest); [reassoc|positions|exact Hrest| |].
  { follows_here. }
  same_run H. f_equal; [positions|lists..].
Qed.

Lemma reads_tpower p : reads_power p -> reads_term (TPower p).
Proof.
  intros IH infix pre rest i out stk r Hinfix Hi Hrest Htop H.
  cbn [text_term emitted_term pending_term] in *.
  eapply IH; try eassumption.
  destruct stk; cbn [top_in In] in *; intuition.
Qed.

(** The step shared by [*] and [/]. *)
Lemma reads_times c t p :
  c = "*"%char \/ c = "/"%char ->
  reads_term t -> reads_power p ->
  forall infix pre rest i out stk r,
    infix = pre +:+ (text_term t +:+ str c +:+ text_power p) +:+ rest ->
    i = String.length pre -> follows rest ->
    top_in ["("; "+"; "-"] stk ->
    resumes infix
      (State (i + String.length (text_term t +:+ str c +:+ text_power p))
             (out ++ postfix_term t ++ emitted_power p)
             ((pending_power p ++ [str c]) ++ stk)) r ->
    converges infix (State i out stk) r.
Proof.
  intros Hc IHt IHp infix pre rest i out stk r Hinfix Hi Hrest Htop H.
  apply (IHt infix pre (str c +:+ text_power p +:+ rest)); [reassoc|exact Hi| |exact Htop|].
  { destruct Hc as [-> | ->]; follows_here. }
  eapply resumes_step.
  { rewrite operator_times with (pre := pre +:+ text_term t) (c := c)
                                (rest := text_power p +:+ rest);
      [|positions|reassoc|exact Hc|].
    - rewrite pop_while_pending; [reflexivity| |].
      + eapply class_all; [apply pending_term_class|]. repeat constructor.
      + eapply class_top; [exact Htop|]. repeat constructor.
    - apply operand_start_next; [apply text_power_start|].
      destruct Hc as [-> | ->]; cbn [In]; auto 6. }
  apply (IHp infix (pre +:+ text_term t +:+ str c) rest); [reassoc|positions|exact Hrest| |].
  { destruct Hc as [-> | ->]; follows_here. }
  same_run H. f_equal; [positions| |lists].
  rewrite <- (emitted_pending_term t). lists.
Qed.

Lemma reads_mul t p : reads_term t -> reads_power p -> reads_term (Mul t p).
Proof.
  intros IHt IHp infix pre rest i out stk r Hinfix Hi Hrest Htop H.
  eapply (reads_times "*" t p); eauto.
Qed.

Lemma reads_div t p : reads_term t -> reads_power p -> reads_term (Div t p).
Proof.
  intros IHt IHp infix pre rest i out stk r Hinfix Hi Hrest Htop H.
  eapply (reads_times "/" t p); eauto.
Qed.

Lemma reads_eterm t : reads_term t -> reads_expr (ETerm t).
Proof.
  intros IH infix pre rest i out stk r Hinfix Hi Hrest Htop H.
  cbn [text_expr emitted_expr pending_expr] in *.
  eapply IH; try eassumption.
  destruct stk; cbn [top_in In] in *; intuition.
Qed.

Lemma reads_add e t : reads_expr e -> reads_term t -> reads_expr (Add e t).
Proof.
  intros IHe IHt infix pre rest i out stk r Hinfix Hi Hrest Htop H.
  cbn [text_expr emitted_expr pending_expr] in *.
  apply (IHe infix pre ("+" +:+ text_term t +:+ rest)); [reassoc|exact Hi| |exact Htop|].
  { follows_here. }
  eapply resumes_step.
  { rewrite operator_plus with (pre := pre +:+ text_expr e) (rest := text_term t +:+ rest);
      [|positions|reassoc|].
    - rewrite pop_while_pending; [reflexivity| |].
      + eapply class_all; [apply pending_expr_class|]. repeat constructor.
      + eapply class_top; [exact Htop|]. repeat constructor.
    - apply operand_start_next; [apply text_term_start|cbn [In]; auto 6]. }
  apply (IHt infix (pre +:+ text_expr e +:+ "+") rest); [reassoc|positions|exact Hrest| |].
  { follows_here. }
  same_run H. f_equal; [positions| |lists].
  rewrite <- (emitted_pending_expr e). lists.
Qed.

(** The length of a run of minus signs. *)
Lemma minuses_text_length k : String.length (minuses_text k) = k.
Proof.
  induction k as [|k IH]; [reflexivity|].
  cbn [minuses_text String.length]. rewrite IH. reflexivity.
Qed.

Lemma reads_minuses k e t :
  reads_expr e -> reads_term t ->
  forall infix pre rest i out stk r,
    infix = pre +:+ (text_expr e +:+ minuses_text (S k) +:+ text_term t) +:+ rest ->
    i = String.length pre -> follows rest ->
    top_in ["("] stk ->
    resumes infix
      (State (i + String.length (text_expr e +:+ minuses_text (S k) +:+ text_term t))
             (out ++ postfix_expr e ++ emitted_term t)
             ((pending_term t ++ [collapsed (S k)]) ++ stk)) r ->
    converges infix (State i out stk) r.
Proof.
  intros IHe IHt infix pre rest i out stk r Hinfix Hi Hrest Htop H.
  apply (IHe infix pre (minuses_text (S k) +:+ text_term t +:+ rest));
    [reassoc|exact Hi| |exact Htop|].
  { cbn [minuses_text]. follows_here. }
  eapply resumes_step.
  { rewrite operator_minuses with (pre := pre +:+ text_expr e) (k := k)
                                  (rest := text_term t +:+ rest);
      [|positions|reassoc|].
    - rewrite pop_while_pending; [reflexivity| |].
      + eapply class_all; [apply pending_expr_class|]. repeat constructor.
      + eapply class_top; [exact Htop|]. repeat constructor.
    - apply operand_start_next; [apply text_term_start|cbn [In]; auto 6]. }
  apply (IHt infix (pre +:+ text_expr e +:+ minuses_text (S k)) rest);
    [reassoc| |exact Hrest| |].
  { subst. rewrite !str_length_app, minuses_text_length. lia. }
  { unfold collapsed. destruct (negb _); follows_here. }
  same_run H. f_equal; [| |lists].
  - subst. rewrite !str_length_app, minuses_text_length. lia.
  - rewrite <- (emitted_pending_expr e). lists.
Qed.

Lemma reads_sub e t : reads_expr e -> reads_term t -> reads_expr (Sub e t).
Proof.
  intros IHe IHt infix pre rest i out stk r Hinfix Hi Hrest Htop H.
  eapply (reads_minuses 0 e t); eauto.
Qed.

Lemma reads_grammar :
  (forall a, reads_atom a) /\ (forall p, reads_power p) /\
  (forall t, reads_term t) /\ (forall e, reads_expr e).
Proof.
  apply grammar_mut.
  - apply reads_lit.
  - apply reads_paren.
  - apply reads_patom.
  - intros a IHa p IHp. apply reads_pow; assumption.
  - apply reads_tpower.
  - intros t IHt p IHp. apply reads_mul; assumption.
  - intros t IHt p IHp. apply reads_div; assumption.
  - apply reads_eterm.
  - intros e IHe t IHt. apply reads_add; assumption.
  - intros e IHe t IHt. apply reads_sub; assumption.
Qed.

(** The operators left at the end go to the result in the order they are
    popped. *)
Lemma drain_pending pending out :
  Forall (fun s => s <> "(") pending ->
  drain pending out = Rpn (out ++ map TStr pending).
Proof.
  intros H. revert out. induction H as [|s pending Hs H IH]; intros out.
  - cbn [drain map]. rewrite app_nil_r. reflexivity.
  - cbn [drain map]. apply String.eqb_neq in Hs. rewrite Hs, IH, <- app_assoc.
    reflexivity.
Qed.

(** The conversion of a well-formed expression is its postfix form. *)
Lemma infix_to_rpn_postfix e : infix_to_rpn (text_expr e) = Rpn (postfix_expr e).
Proof.
  destruct reads_grammar as (_ & _ & _ & Hexpr).
  assert (H : converges (text_expr e) initial (Rpn (postfix_expr e))).
  { apply (Hexpr e (text_expr e) "" "" 0 [] []); [|reflexivity|exact I|exact I|].
    { change ("" +:+ text_expr e +:+ "") with (text_expr e +:+ "").
      symmetry. apply str_app_nil_r. }
    rewrite app_nil_r. cbn [Nat.add app].
    pose proof (resumes_end (text_expr e)
                  (State (String.length (text_expr e)) (emitted_expr e) (pending_expr e))
                  (Nat.le_refl _)) as Hend.
    cbn [stack result] in Hend. rewrite drain_pending, emitted_pending_expr in Hend.
    - exact Hend.
    - eapply List.Forall_impl; [|apply pending_expr_class].
      cbn [In]. intros s Hs ->. intuition discriminate. }
  destruct H as [fuel Hfuel]. eapply scan_infix_to_rpn. exact Hfuel.
Qed.

(** * The evaluation of postfix forms *)

Section Postfix.

Variable variables : gmap string value.

Lemma evaluates_grammar :
  (forall a v, denote_atom a = Some v -> evaluates variables (postfix_atom a) v) /\
  (forall p v, denote_power p = Some v -> evaluates variables (postfix_power p) v) /\
  (forall t v, denote_term t = Some v -> evaluates variables (postfix_term t) v) /\
  (forall e v, denote_expr e = Some v -> evaluates variables (postfix_expr e) v).
Proof.
  apply grammar_mut.
  - intros d ds v H rest stack. cbn [denote_atom postfix_atom] in *.
    inversion H. reflexivity.
  - intros e IH v H. cbn [denote_atom postfix_atom] in *. apply IH, H.
  - intros a IH v H. cbn [denote_power postfix_power] in *. apply IH, H.
  - intros a IHa p IHp v H rest stack. cbn [denote_power postfix_power] in *.
    destruct (denote_atom a) as [x|]; [|discriminate].
    destruct (denote_power p) as [y|]; [|discriminate].
    destruct (0 <=? y)%Z eqn:Hy; [|discriminate]. inversion H; subst v.
    rewrite <- !app_assoc, (IHa x eq_refl), (IHp y eq_refl). cbn [app].
    apply eval_power, Z.leb_le, Hy.
  - intros p IH v H. cbn [denote_term postfix_term] in *. apply IH, H.
  - intros t IHt p IHp v H rest stack. cbn [denote_term postfix_term] in *.
    destruct (denote_term t) as [x|]; [|discriminate].
    destruct (denote_power p) as [y|]; [|discriminate]. inversion H; subst v.
    rewrite <- !app_assoc, (IHt x eq_refl), (IHp y eq_refl). cbn [app].
    apply eval_mul.
  - intros t IHt p IHp v H rest stack. cbn [denote_term postfix_term] in *.
    destruct (denote_term t) as [x|]; [|discriminate].
    destruct (denote_power p) as [y|]; [|discriminate].
    destruct (y =? 0)%Z eqn:Hy; [discriminate|]. inversion H; subst v.
    rewrite <- !app_assoc, (IHt x eq_refl), (IHp y eq_refl). cbn [app].
    rewrite eval_division, Hy. reflexivity.
  - intros t IH v H. cbn [denote_expr postfix_expr] in *. apply IH, H.
  - intros e IHe t IHt v H rest stack. cbn [denote_expr postfix_expr] in *.
    destruct (denote_expr e) as [x|]; [|discriminate].
    destruct (denote_term t) as [y|]; [|discriminate]. inversion H; subst v.
    rewrite <- !app_assoc, (IHe x eq_refl), (IHt y eq_refl). cbn [app].
    apply eval_add.
  - intros e IHe t IHt v H rest stack. cbn [denote_expr postfix_expr] in *.
    destruct (denote_expr e) as [x|]; [|discriminate].
    destruct (denote_term t) as [y|]; [|discriminate]. inversion H; subst v.
    rewrite <- !app_assoc, (IHe x eq_refl), (IHt y eq_refl). cbn [app].
    apply eval_sub.
Qed.

Lemma rpn_to_result_postfix e v :
  denote_expr e = Some v ->
  rpn_to_result variables (postfix_expr e) = Value (VInt v).
Proof.
  intros H. destruct evaluates_grammar as (_ & _ & _ & Hexpr).
  unfold rpn_to_result. rewrite <- (app_nil_r (postfix_expr e)).
  rewrite (Hexpr e v H). reflexivity.
Qed.

Lemma parse_expression_denote e v :
  denote_expr e = Some v ->
  parse_expression variables (text_expr e) = Value (VInt v).
Proof.
  intros H. unfold parse_expression.
  rewrite infix_to_rpn_postfix. apply rpn_to_result_postfix, H.
Qed.

End Postfix.

(** * Runs of minus signs *)

Lemma infix_to_rpn_minuses k e t :
  infix_to_rpn (text_expr e +:+ minuses_text (S k) +:+ text_term t) =
  Rpn (postfix_expr e ++ postfix_term t ++ [TStr (collapsed (S k))]).
Proof.
  destruct reads_grammar as (_ & _ & Hterm & Hexpr).
  set (infix := text_expr e +:+ minuses_text (S k) +:+ text_term t).
  assert (H : converges infix initial
                (Rpn (postfix_expr e ++ postfix_term t ++ [TStr (collapsed (S k))]))).
  { apply (reads_minuses k e t (Hexpr e) (Hterm t) infix "" "" 0 [] []);
      [|reflexivity|exact I|exact I|].
    { change ("" +:+ infix +:+ "") with (infix +:+ ""). symmetry. apply str_app_nil_r. }
    rewrite app_nil_r. cbn [Nat.add app]. fold infix.
    pose proof (resumes_end infix
                  (State (String.length infix) (postfix_expr e ++ emitted_term t)
                         (pending_term t ++ [collapsed (S k)]))
                  (Nat.le_refl _)) as Hend.
    cbn [stack result] in Hend. rewrite drain_pending in Hend.
    - rewrite map_app, <- !app_assoc, (app_assoc (emitted_term t)),
        emitted_pending_term in Hend. exact Hend.
    - apply Forall_app. split.
      + eapply List.Forall_impl; [|apply pending_term_class].
        cbn [In]. intros s Hs ->. intuition discriminate.
      + unfold collapsed. destruct (negb _); repeat constructor; discriminate. }
  destruct H as [fuel Hfuel]. eapply scan_infix_to_rpn. exact Hfuel.
Qed.

Lemma collapsed_even k : collapsed k = if Nat.even k then "+" else "-".
Proof.
  unfold collapsed. rewrite <- Nat.negb_odd, <- Nat.bit0_odd, Nat.bit0_eqb.
  pose proof (Nat.mod_upper_bound k 2 ltac:(lia)) as Hlt.
  destruct (k mod 2) as [|[|n]]; [reflexivity..|lia].
Qed.

Lemma parse_expression_minuses variables k e t x y :
  denote_expr e = Some x -> denote_term t = Some y ->
  parse_expression variables (text_expr e +:+ minuses_text (S k) +:+ text_term t) =
  Value (VInt (if Nat.even (S k) then x + y else x - y)%Z).
Proof.
  intros Hx Hy. unfold parse_expression, rpn_to_result.
  rewrite infix_to_rpn_minuses, collapsed_even.
  destruct (evaluates_grammar variables) as (_ & _ & Hterm & Hexpr).
  rewrite (Hexpr e x Hx), (Hterm t y Hy).
  destruct (Nat.even (S k)); cbn [app]; [rewrite eval_add|rewrite eval_sub]; reflexivity.
Qed.

(** * A sign after a sign at the start *)

Lemma infix_to_rpn_two_minuses rest : infix_to_rpn ("--" +:+ rest) = Error.
Proof.
  apply (scan_infix_to_rpn _ 1).
  change ("--" +:+ rest) with (String "-" (String "-" rest)).
  reflexivity.
Qed.

(** * The parts of an assignment *)

Lemma split_assignment_parts line0 line1 :
  all_alphabetic line0 = true ->
  split_assignment (line0 +:+ "=" +:+ line1) = [line0; line1].
Proof.
  induction line0 as [|c line0 IH]; intros H.
  - reflexivity.
  - cbn [all_alphabetic] in H. apply andb_true_iff in H as [Hc H].
    rewrite str_app_cons. cbn [split_assignment].
    destruct (Ascii.eqb c "=") eqn:E.
    + apply Ascii.eqb_eq in E. subst c. discriminate.
    + rewrite (IH H). reflexivity.
Qed.

(** * The stated properties *)

(** C1.  A well-formed infix expression of integer literals, the operators
    [+ - * / ^] and balanced parentheses is converted and evaluated to the
    value that precedence and grouping give it: [^] before [*] and [/],
    these before [+] and [-], operators of one level from the left, [^] from
    the right, [/] rounding down.  [2+3*4] is 14 and [(2+3)*4] is 20. *)
Theorem expression_value :
  (forall variables e v,
     denote_expr e = Some v ->
     parse_expression variables (text_expr e) = Value (VInt v)) /\
  parse_expression ∅ "2+3*4" = Value (VInt 14) /\
  parse_expression ∅ "(2+3)*4" = Value (VInt 20).
Proof.
  split; [|split].
  - intros variables e v H. apply parse_expression_denote, H.
  - vm_compute. reflexivity.
  - vm_compute. reflexivity.
Qed.

Lemma expression_value_witness :
  denote_expr
    (Add (ETerm (TPower (PAtom (Lit D2 []))))
         (Mul (TPower (PAtom (Lit D3 []))) (PAtom (Lit D4 [])))) = Some 14%Z /\
  parse_expression ∅
    (text_expr
       (Add (ETerm (TPower (PAtom (Lit D2 []))))
            (Mul (TPower (PAtom (Lit D3 []))) (PAtom (Lit D4 []))))) =
  Value (VInt 14).
Proof.
  split; [reflexivity|].
  apply (proj1 expression_value). reflexivity.
Defined.

(** C2.  When [^] is read, the loop that should move [^] and [#] from the
    top of the stack to the result compares the top with the two-character
    string ["^#"], which no entry of the stack equals: nothing is moved.  In
    [-2^2] the [#] stays under the [^] and is emitted after it. *)
Theorem power_pops_nothing :
  (forall c below result,
     pop_while (fun top => String.eqb top "^#") (str c :: below) result =
     (str c :: below, result)) /\
  infix_to_rpn "-2^2" = Rpn [TInt 2; TInt 2; TStr "^"; TStr "#"] /\
  parse_expression ∅ "-2^2" = Value (VInt (-4)).
Proof.
  split; [|split].
  - intros c below result. cbn [pop_while].
    replace (String.eqb (str c) "^#") with false; [reflexivity|].
    symmetry. apply String.eqb_neq. unfold str. congruence.
  - vm_compute. reflexivity.
  - vm_compute. reflexivity.
Qed.

(** C3.  The assignment [a=()] is accepted without a message and stores the
    empty string under [a]: a session reaches a dictionary that binds a
    value that is not an integer. *)
Theorem assignment_stores_empty_string :
  parse_assignment ∅ "a=()" = Value (<["a" := VStr ""]> ∅, []) /\
  reachable (<["a" := VStr ""]> ∅) /\
  (<["a" := VStr ""]> ∅ : gmap string value) !! "a" = Some (VStr "").
Proof.
  assert (H : parse_assignment ∅ "a=()" = Value (<["a" := VStr ""]> ∅, [])).
  { vm_compute. reflexivity. }
  split; [exact H|split].
  - eapply (reachable_step ∅ "a=()"); [apply reachable_start|].
    unfold main_step.
    replace (remove_whitespace "a=()") with "a=()" by (vm_compute; reflexivity).
    replace (negb (String.eqb "a=()" "")) with true by reflexivity.
    replace (String.prefix "/" "a=()") with false by reflexivity.
    replace (str_in "=" "a=()") with true by reflexivity.
    exact H.
  - apply lookup_insert_eq.
Qed.

(** C4, as stated: [-5+3] gives -2 and [--5] gives 5.  The second part does
    not hold. *)
Lemma leading_minuses_counterexample :
  ~ (parse_expression ∅ "-5+3" = Value (VInt (-2)) /\
     parse_expression ∅ "--5" = Value (VInt 5)).
Proof. intros [_ H]. vm_compute in H. discriminate. Qed.

(** C4, amended.  [-5+3] gives -2.  A sign at the start must be followed
    by a digit, a letter or an opening parenthesis: an input that starts
    with two minus signs, [--5] among them, is an invalid expression. *)
Theorem leading_minus :
  parse_expression ∅ "-5+3" = Value (VInt (-2)) /\
  (forall variables rest,
     parse_expression variables ("--" +:+ rest) = Value invalid_expression) /\
  parse_expression ∅ "--5" = Value invalid_expression.
Proof.
  split; [|split].
  - vm_compute. reflexivity.
  - intros variables rest. unfold parse_expression.
    rewrite infix_to_rpn_two_minuses. reflexivity.
  - vm_compute. reflexivity.
Qed.

(** C5.  The operator [/] applied to the left operand [a] and the right
    operand [b] gives the quotient rounded down when [b] is not zero, and
    the result ["Invalid expression"], no exception, when [b] is zero.
    [-7/2] and [7/-2] give -4, [7/2] gives 3, [5/0] is invalid. *)
Theorem division_rounds_down :
  forall variables a b,
    (forall rest stack,
       eval_loop variables (TStr "/" :: rest) (VInt b :: VInt a :: stack) =
       if (b =? 0)%Z then Value invalid_expression
       else eval_loop variables rest (VInt (a / b) :: stack)) /\
    rpn_to_result variables [TInt a; TInt b; TStr "/"] =
      (if (b =? 0)%Z then Value invalid_expression else Value (VInt (a / b))) /\
    (b <> 0%Z ->
     (b * (a / b) <= a < b * (a / b) + b \/ b * (a / b) + b < a <= b * (a / b))%Z) /\
    parse_expression variables "-7/2" = Value (VInt (-4)) /\
    parse_expression variables "7/-2" = Value (VInt (-4)) /\
    parse_expression variables "7/2" = Value (VInt 3) /\
    parse_expression variables "5/0" = Value invalid_expression.
Proof.
  intros variables a b. split; [|split; [|split]].
  - intros rest stack. apply eval_division.
  - unfold rpn_to_result. rewrite !eval_int, eval_division.
    destruct (b =? 0)%Z; reflexivity.
  - apply floor_quotient.
  - unfold parse_expression.
    replace (infix_to_rpn "-7/2") with (Rpn [TInt 7; TStr "#"; TInt 2; TStr "/"])
      by (vm_compute; reflexivity).
    replace (infix_to_rpn "7/-2") with (Rpn [TInt 7; TInt 2; TStr "#"; TStr "/"])
      by (vm_compute; reflexivity).
    replace (infix_to_rpn "7/2") with (Rpn [TInt 7; TInt 2; TStr "/"])
      by (vm_compute; reflexivity).
    replace (infix_to_rpn "5/0") with (Rpn [TInt 5; TInt 0; TStr "/"])
      by (vm_compute; reflexivity).
    repeat split; reflexivity.
Qed.

Lemma division_rounds_down_witness :
  (2 <> 0)%Z /\
  ((2 * (-7 / 2) <= -7 < 2 * (-7 / 2) + 2) \/
   (2 * (-7 / 2) + 2 < -7 <= 2 * (-7 / 2)))%Z.
Proof.
  split; [lia|].
  apply (proj1 (proj2 (proj2 (division_rounds_down ∅ (-7) 2)))). lia.
Defined.

(** C6.  An assignment with a valid identifier on the left and a right-hand
    side that is not empty: when the right-hand side is not a name missing
    from the dictionary and its evaluation gives ["Invalid expression"] or
    ["Unknown variable"], the message is ["Invalid assignment"] and the
    dictionary is unchanged; when the right-hand side is all letters and
    not in the dictionary, the message is ["Unknown variable"]. *)
Theorem assignment_masks_errors :
  forall variables line0 line1,
    isalpha line0 = true -> line1 <> "" ->
    (isalpha line1 && negb (contains variables line1) = false ->
     parse_expression variables line1 = Value invalid_expression \/
     parse_expression variables line1 = Value unknown_variable ->
     parse_assignment variables (line0 +:+ "=" +:+ line1) =
     Value (variables, [say "Invalid assignment"])) /\
    (isalpha line1 = true -> contains variables line1 = false ->
     parse_assignment variables (line0 +:+ "=" +:+ line1) =
     Value (variables, [say "Unknown variable"])).
Proof.
  intros variables line0 line1 H0 H1.
  assert (Hparts : split_assignment (line0 +:+ "=" +:+ line1) = [line0; line1]).
  { apply split_assignment_parts. unfold isalpha in H0.
    apply andb_true_iff in H0. tauto. }
  assert (Hne0 : String.eqb line0 "" = false).
  { unfold isalpha in H0. apply andb_true_iff in H0 as [H0 _].
    apply negb_true_iff in H0. exact H0. }
  apply String.eqb_neq in H1.
  unfold parse_assignment. rewrite Hparts, Hne0, H0, H1. cbn [negb].
  split.
  - intros Hknown Herr. rewrite Hknown.
    destruct Herr as [-> | ->]; reflexivity.
  - intros Halpha Hmissing. rewrite Halpha, Hmissing. reflexivity.
Qed.

Lemma assignment_masks_errors_witness :
  isalpha "b" = true /\ "c+1" <> "" /\
  isalpha "c+1" && negb (contains (<["a" := VInt 5]> ∅) "c+1") = false /\
  (parse_expression (<["a" := VInt 5]> ∅) "c+1" = Value invalid_expression \/
   parse_expression (<["a" := VInt 5]> ∅) "c+1" = Value unknown_variable) /\
  parse_assignment (<["a" := VInt 5]> ∅) ("b" +:+ "=" +:+ "c+1") =
  Value (<["a" := VInt 5]> ∅, [say "Invalid assignment"]).
Proof.
  assert (H0 : isalpha "b" = true) by reflexivity.
  assert (H1 : "c+1" <> "") by discriminate.
  assert (H2 : isalpha "c+1" && negb (contains (<["a" := VInt 5]> ∅) "c+1") = false)
    by reflexivity.
  assert (H3 : parse_expression (<["a" := VInt 5]> ∅) "c+1" = Value invalid_expression \/
               parse_expression (<["a" := VInt 5]> ∅) "c+1" = Value unknown_variable)
    by (right; vm_compute; reflexivity).
  split; [exact H0|split; [exact H1|split; [exact H2|split; [exact H3|]]]].
  exact (proj1 (assignment_masks_errors (<["a" := VInt 5]> ∅) "b" "c+1" H0 H1) H2 H3).
Defined.

(** C7.  In the evaluation of a postfix list: [#] on an empty stack and a
    binary operator on fewer than two values give ["Invalid expression"];
    more than one value left after the scan gives ["Invalid expression"];
    the empty list gives the empty result, which is no error message. *)
Theorem evaluation_errors :
  forall variables,
    (forall rest,
       eval_loop variables (TStr "#" :: rest) [] = Value invalid_expression) /\
    (forall op rest stack,
       In op ["+"; "-"; "*"; "/"; "^"] -> length stack < 2 ->
       eval_loop variables (TStr op :: rest) stack = Value invalid_expression) /\
    (forall stack,
       1 < length stack ->
       eval_loop variables [] stack = Value invalid_expression) /\
    rpn_to_result variables [] = Value (VStr "") /\
    is_error_message (VStr "") = false.
Proof.
  intros variables. split; [|split; [|split; [|split]]].
  - intros rest. reflexivity.
  - intros op rest stack Hop Hlen. cbn [In] in Hop.
    destruct stack as [|x [|y stack]]; [| |cbn [length] in Hlen; lia];
      repeat (destruct Hop as [<-|Hop]; [reflexivity|]); destruct Hop.
  - intros stack Hlen. cbn [eval_loop]. unfold finish.
    apply Nat.ltb_lt in Hlen. rewrite Hlen. reflexivity.
  - reflexivity.
  - reflexivity.
Qed.

Lemma evaluation_errors_witness :
  In "+" ["+"; "-"; "*"; "/"; "^"] /\ length [VInt 1] < 2 /\
  eval_loop ∅ [TStr "+"] [VInt 1] = Value invalid_expression.
Proof.
  assert (H1 : In "+" ["+"; "-"; "*"; "/"; "^"]) by (left; reflexivity).
  assert (H2 : length [VInt 1] < 2) by (cbn; lia).
  split; [exact H1|split; [exact H2|]].
  exact (proj1 (proj2 (evaluation_errors ∅)) "+" [] [VInt 1] H1 H2).
Defined.

(** C8.  [2^3^2] gives 512, the value of [2^(3^2)]: of two [^] in a row the
    right one is applied first, and the evaluator takes the top of the
    stack as the exponent and the value under it as the base. *)
Theorem power_groups_right :
  parse_expression ∅ "2^3^2" = Value (VInt 512) /\
  (2 ^ (3 ^ 2) = 512)%Z /\
  infix_to_rpn "2^3^2" = Rpn [TInt 2; TInt 3; TInt 2; TStr "^"; TStr "^"] /\
  (forall variables base exponent rest stack,
     (0 <= exponent)%Z ->
     eval_loop variables (TStr "^" :: rest) (VInt exponent :: VInt base :: stack) =
     eval_loop variables rest (VInt (base ^ exponent) :: stack)) /\
  (forall variables a b c x y z,
     denote_atom a = Some x -> denote_atom b = Some y -> denote_atom c = Some z ->
     (0 <= z)%Z -> (0 <= y ^ z)%Z ->
     parse_expression variables
       (text_atom a +:+ "^" +:+ text_atom b +:+ "^" +:+ text_atom c) =
     Value (VInt (x ^ (y ^ z)))).
Proof.
  split; [|split; [|split; [|split]]].
  - vm_compute. reflexivity.
  - reflexivity.
  - vm_compute. reflexivity.
  - intros. apply eval_power. assumption.
  - intros variables a b c x y z Ha Hb Hc Hz Hyz.
    apply (parse_expression_denote variables
             (ETerm (TPower (Pow a (Pow b (PAtom c)))))).
    cbn [denote_expr denote_term denote_power]. rewrite Ha, Hb, Hc.
    apply Z.leb_le in Hz, Hyz. rewrite Hz, Hyz. reflexivity.
Qed.

Lemma power_groups_right_witness :
  (0 <= 2)%Z /\
  eval_loop ∅ [TStr "^"] [VInt 2; VInt 3] = eval_loop ∅ [] [VInt (3 ^ 2)].
Proof.
  split; [lia|].
  apply (proj1 (proj2 (proj2 (proj2 power_groups_right))) ∅ 3%Z 2%Z [] []). lia.
Defined.

(** C9.  Between two operands a run of minus signs counts as one operator:
    [+] when the run is even, [-] when it is odd.  [2---2] gives 0 and
    [2----2] gives 4. *)
Theorem minus_run_parity :
  (forall k e t,
     infix_to_rpn (text_expr e +:+ minuses_text (S k) +:+ text_term t) =
     Rpn (postfix_expr e ++ postfix_term t ++
          [TStr (if Nat.even (S k) then "+" else "-")])) /\
  (forall variables k e t x y,
     denote_expr e = Some x -> denote_term t = Some y ->
     parse_expression variables (text_expr e +:+ minuses_text (S k) +:+ text_term t) =
     Value (VInt (if Nat.even (S k) then x + y else x - y)%Z)) /\
  parse_expression ∅ "2---2" = Value (VInt 0) /\
  parse_expression ∅ "2----2" = Value (VInt 4).
Proof.
  split; [|split; [|split]].
  - intros k e t. rewrite infix_to_rpn_minuses, collapsed_even. reflexivity.
  - intros variables k e t x y Hx Hy. apply parse_expression_minuses; assumption.
  - vm_compute. reflexivity.
  - vm_compute. reflexivity.
Qed.

Lemma minus_run_parity_witness :
  denote_expr (ETerm (TPower (PAtom (Lit D2 [])))) = Some 2%Z /\
  denote_term (TPower (PAtom (Lit D2 []))) = Some 2%Z /\
  parse_expression ∅
    (text_expr (ETerm (TPower (PAtom (Lit D2 [])))) +:+ minuses_text 3 +:+
     text_term (TPower (PAtom (Lit D2 [])))) =
  Value (VInt (if Nat.even 3 then 2 + 2 else 2 - 2)%Z).
Proof.
  split; [reflexivity|split; [reflexivity|]].
  apply (proj1 (proj2 minus_run_parity) ∅ 2
           (ETerm (TPower (PAtom (Lit D2 [])))) (TPower (PAtom (Lit D2 []))));
    reflexivity.
Defined.

(** C10.  The conversion ends on every input: an iteration of the scan
    loop returns the error or leaves the index larger than it found it, so
    as many iterations as the input has characters are enough, and the
    result does not depend on how many more are allowed. *)
Theorem conversion_terminates :
  (forall infix st,
     pos st < String.length infix ->
     match iteration infix st with
     | Return_Error => True
     | Continue st' => pos st < pos st'
     end) /\
  (forall infix,
     exists r, scan infix (String.length infix) initial = Some r /\
               infix_to_rpn infix = r /\
               forall fuel, String.length infix <= fuel ->
                            scan infix fuel initial = Some r).
Proof.
  split.
  - intros infix st Hlt. destruct (iteration infix st) as [|st'] eqn:Hit; [exact I|].
    eapply iteration_progress; eassumption.
  - intros infix.
    destruct (scan_enough infix (String.length infix) initial) as [r Hr]; [cbn; lia|].
    exists r. split; [exact Hr|split].
    + eapply scan_infix_to_rpn. exact Hr.
    + intros fuel Hfuel. eapply scan_more; eassumption.
Qed.

Lemma conversion_terminates_witness :
  pos initial < String.length "2+3" /\
  match iteration "2+3" initial with
  | Return_Error => True
  | Continue st' => pos initial < pos st'
  end.
Proof.
  assert (H : pos initial < String.length "2+3") by (cbn; lia).
  split; [exact H|].
  exact (proj1 conversion_terminates "2+3" initial H).
Defined.

(** * What the conversion emits *)

Lemma digit_value_range c :
  str_in (str c) digits = true -> (0 <= int_of_digit c <= 9)%Z.
Proof.
  destruct c as [[] [] [] [] [] [] [] []]; vm_compute;
    intros H; try discriminate H; split; discriminate.
Qed.

Lemma ascii_letters_only_app s t :
  ascii_letters_only (s +:+ t) = ascii_letters_only s && ascii_letters_only t.
Proof.
  induction s as [|c s IH]; [reflexivity|].
  rewrite str_app_cons. cbn [ascii_letters_only]. rewrite IH, andb_assoc. reflexivity.
Qed.

Lemma str_app_not_empty s c : (s +:+ str c =? "")%string = false.
Proof. destruct s; reflexivity. Qed.

Section Emitted.

Variable infix : string.

Lemma scan_integer_nonneg n : forall i integer,
  (0 <= integer)%Z -> (0 <= snd (scan_integer infix n i integer))%Z.
Proof.
  induction n as [|n IH]; intros i integer H; cbn [scan_integer snd]; [exact H|].
  destruct (i <? String.length infix); cbn [andb snd]; [|exact H].
  destruct (str_in (str infix.[i]) digits) eqn:Hd; cbn [snd]; [|exact H].
  apply IH. pose proof (digit_value_range _ Hd). lia.
Qed.

Lemma scan_name_letters n : forall i var_name,
  ascii_letters_only var_name = true ->
  ascii_letters_only (snd (scan_name infix n i var_name)) = true.
Proof.
  induction n as [|n IH]; intros i var_name H; cbn [scan_name snd]; [exact H|].
  destruct (i <? String.length infix); cbn [andb snd]; [|exact H].
  destruct (str_in (str infix.[i]) ascii_letters) eqn:Hl; cbn [snd]; [|exact H].
  apply IH. rewrite ascii_letters_only_app, H.
  change (ascii_letters_only (str infix.[i]))
    with (str_in (str infix.[i]) ascii_letters && true).
  rewrite Hl. reflexivity.
Qed.

Lemma scan_name_not_empty n : forall i var_name,
  (var_name =? "")%string = false ->
  (snd (scan_name infix n i var_name) =? "")%string = false.
Proof.
  induction n as [|n IH]; intros i var_name H; cbn [scan_name snd]; [exact H|].
  destruct (_ && _); cbn [snd]; [|exact H].
  apply IH, str_app_not_empty.
Qed.

Lemma pop_while_emits p stk out :
  (forall s, stack_entry s -> p s = true -> s <> "(") ->
  Forall stack_entry stk -> Forall postfix_token out ->
  Forall stack_entry (fst (pop_while p stk out)) /\
  Forall postfix_token (snd (pop_while p stk out)).
Proof.
  intros Hp Hstk. revert out. induction Hstk as [|top below Htop Hbelow IH]; intros out Hout.
  - cbn [pop_while fst snd]. split; [constructor|exact Hout].
  - cbn [pop_while]. destruct (p top) eqn:E.
    + apply IH. apply Forall_app. split; [exact Hout|].
      constructor; [|constructor]. cbn [postfix_token]. left.
      pose proof (Hp top Htop E) as Hne. unfold stack_entry in Htop. cbn [In] in *.
      intuition congruence.
    + cbn [fst snd]. split; [constructor; assumption|exact Hout].
Qed.

Lemma unary_sign_emits st st' :
  unary_sign infix st = Continue st' -> emits_well st -> emits_well st'.
Proof.
  unfold unary_sign, emits_well. intros H [Hs Hr].
  destruct (_ && _); [destruct (_ || _)|]; inversion H; subst; cbn [stack result];
    [|split; assumption].
  split; [|exact Hr].
  destruct (Ascii.eqb _ _); [|exact Hs].
  constructor; [|exact Hs]. unfold stack_entry. cbn [In]. auto.
Qed.

Lemma operand_emits st st' :
  operand infix st = Continue st' -> emits_well st -> emits_well st'.
Proof.
  unfold operand, emits_well. intros H [Hs Hr].
  destruct (pos st <? String.length infix) eqn:Hlt; cbn [andb] in H;
    [|inversion H; subst; split; assumption].
  destruct (str_in (str infix.[pos st]) digits) eqn:Hd; cbn [orb] in H.
  - pose proof (scan_integer_nonneg (String.length infix - pos st) (pos st) 0%Z
                  (Z.le_refl 0)) as Hv.
    destruct (scan_integer _ _ _ _) as [i' integer]. inversion H; subst.
    cbn [stack result snd] in *. split; [exact Hs|].
    apply Forall_app. split; [exact Hr|]. constructor; [exact Hv|constructor].
  - destruct (str_in (str infix.[pos st]) ascii_letters) eqn:Hl.
    + destruct (String.length infix - pos st) as [|n] eqn:Hn.
      { apply Nat.ltb_lt in Hlt. lia. }
      cbn [scan_name] in H. rewrite Hlt, Hl in H. cbn [andb] in H.
      pose proof (scan_name_letters n (pos st + 1) ("" +:+ str infix.[pos st])) as Hletters.
      pose proof (scan_name_not_empty n (pos st + 1) ("" +:+ str infix.[pos st])
                    (str_app_not_empty _ _)) as Hne.
      destruct (scan_name _ _ _ _) as [i' var_name]. inversion H; subst.
      cbn [stack result snd] in *. split; [exact Hs|].
      apply Forall_app. split; [exact Hr|]. constructor; [|constructor].
      cbn [postfix_token]. right. unfold ascii_name. rewrite Hne, Hletters; [reflexivity|].
      change (ascii_letters_only ("" +:+ str infix.[pos st]))
        with (str_in (str infix.[pos st]) ascii_letters && true).
      rewrite Hl. reflexivity.
    + destruct (negb _); inversion H; subst. split; assumption.
Qed.

Lemma operator_emits st st' :
  operator infix st = Continue st' -> emits_well st -> emits_well st'.
Proof.
  unfold operator, emits_well. intros H [Hs Hr].
  assert (Hclass : forall x s, stack_entry s -> str_in s x = true ->
                               str_in "(" x = false -> s <> "(").
  { intros x s _ Hin Hno ->. congruence. }
  destruct (_ && _); [|inversion H; subst; split; assumption].
  destruct (Ascii.eqb infix.[pos st] "(").
  { inversion H; subst. cbn [stack result]. split; [|exact Hr].
    constructor; [|exact Hs]. unfold stack_entry. cbn [In]. auto. }
  destruct (Ascii.eqb infix.[pos st] "+").
  { destruct (pop_while_emits (fun top => str_in top "+-*/^#") (stack st) (result st))
      as [Hs' Hr']; [|exact Hs|exact Hr|].
    { intros s Hin Hp. apply (Hclass "+-*/^#" s Hin Hp). reflexivity. }
    destruct (pop_while _ _ _) as [stack' result']. inversion H; subst.
    cbn [stack result fst snd] in *. split; [|exact Hr'].
    constructor; [|exact Hs']. unfold stack_entry. cbn [In]. auto. }
  destruct (Ascii.eqb infix.[pos st] "-").
  { destruct (pop_while_emits (fun top => str_in top "+-*/^#") (stack st) (result st))
      as [Hs' Hr']; [|exact Hs|exact Hr|].
    { intros s Hin Hp. apply (Hclass "+-*/^#" s Hin Hp). reflexivity. }
    destruct (pop_while _ _ _) as [stack' result'].
    destruct (count_minuses _ _ _ _) as [i' minuses].
    destruct (negb _); inversion H; subst; cbn [stack result fst snd] in *;
      (split; [|exact Hr']); (constructor; [|exact Hs']);
      unfold stack_entry; cbn [In]; auto. }
  destruct (str_in (str infix.[pos st]) "*/") eqn:Htimes.
  { destruct (_ && _); [discriminate|].
    destruct (pop_while_emits (fun top => str_in top "*/^#") (stack st) (result st))
      as [Hs' Hr']; [|exact Hs|exact Hr|].
    { intros s Hin Hp. apply (Hclass "*/^#" s Hin Hp). reflexivity. }
    destruct (pop_while _ _ _) as [stack' result']. inversion H; subst.
    cbn [stack result fst snd] in *. split; [|exact Hr'].
    constructor; [|exact Hs']. revert Htimes. generalize infix.[pos st]. intros c.
    destruct c as [[] [] [] [] [] [] [] []]; vm_compute; intros E;
      try discriminate E; auto 8. }
  destruct (Ascii.eqb infix.[pos st] "^") eqn:Hpow.
  { destruct (_ && _); [discriminate|].
    destruct (pop_while_emits (fun top => String.eqb top "^#") (stack st) (result st))
      as [Hs' Hr']; [|exact Hs|exact Hr|].
    { intros s Hin Hp. apply String.eqb_eq in Hp. subst s. discriminate. }
    destruct (pop_while _ _ _) as [stack' result']. inversion H; subst.
    cbn [stack result fst snd] in *. split; [|exact Hr'].
    apply Ascii.eqb_eq in Hpow. rewrite Hpow.
    constructor; [|exact Hs']. unfold stack_entry. cbn [In str]. auto 8. }
  destruct (Ascii.eqb infix.[pos st] ")").
  { destruct (pop_while_emits (fun top => negb (String.eqb top "(")) (stack st) (result st))
      as [Hs' Hr']; [|exact Hs|exact Hr|].
    { intros s _ Hp. apply negb_true_iff, String.eqb_neq in Hp. exact Hp. }
    destruct (pop_while _ _ _) as [stack' result'].
    destruct stack' as [|top below]; [discriminate|]. inversion H; subst.
    cbn [stack result fst snd] in *. split; [|exact Hr'].
    inversion Hs'; assumption. }
  inversion H; subst. split; assumption.
Qed.

Lemma iteration_emits st st' :
  iteration infix st = Continue st' -> emits_well st -> emits_well st'.
Proof.
  unfold iteration. intros H Hst.
  destruct (unary_sign infix st) as [|st1] eqn:H1; [discriminate|].
  destruct (operand infix st1) as [|st2] eqn:H2; [discriminate|].
  eapply operator_emits; [exact H|].
  eapply operand_emits; [exact H2|].
  eapply unary_sign_emits; [exact H1|exact Hst].
Qed.

Lemma drain_emits stk out l :
  Forall stack_entry stk -> Forall postfix_token out ->
  drain stk out = Rpn l -> Forall postfix_token l.
Proof.
  intros Hstk. revert out. induction Hstk as [|top below Htop Hbelow IH]; intros out Hout H.
  - cbn [drain] in H. inversion H; subst. exact Hout.
  - cbn [drain] in H. destruct (String.eqb top "(") eqn:E; [discriminate|].
    apply (IH (out ++ [TStr top])); [|exact H].
    apply Forall_app. split; [exact Hout|]. constructor; [|constructor].
    cbn [postfix_token]. left. apply String.eqb_neq in E.
    unfold stack_entry in Htop. cbn [In] in *. intuition congruence.
Qed.

Lemma scan_emits fuel : forall st l,
  scan infix fuel st = Some (Rpn l) -> emits_well st -> Forall postfix_token l.
Proof.
  induction fuel as [|fuel IH]; intros st l H [Hs Hr]; cbn [scan] in H;
    destruct (pos st <? String.length infix).
  - discriminate.
  - inversion H as [Hd]. eapply drain_emits; eassumption.
  - destruct (iteration infix st) as [|st'] eqn:Hit; [discriminate|].
    apply (IH st' l H). eapply iteration_emits; [exact Hit|split; assumption].
  - inversion H as [Hd]. eapply drain_emits; eassumption.
Qed.

End Emitted.

(** The loop behind a list that the conversion returned. *)
Lemma infix_to_rpn_scan infix l :
  infix_to_rpn infix = Rpn l ->
  scan infix (String.length infix) initial = Some (Rpn l).
Proof.
  intros H. destruct (scan_enough infix (String.length infix) initial) as [r Hr];
    [cbn; lia|].
  unfold infix_to_rpn in H. rewrite Hr in H. congruence.
Qed.

(** * What the conversion reads *)

Lemma kind_tests_hold c : kind_tests c.
Proof.
  destruct c as [[] [] [] [] [] [] [] []]; vm_compute; repeat split; reflexivity.
Qed.

(** Rewrite the tests on the character [c] to its kind and split on it. *)
Ltac by_kind c :=
  let T := fresh "T" in
  pose proof (kind_tests_hold c) as T; unfold kind_tests in T;
  cbv zeta in T;
  destruct T as (?Td & ?Tl & ?Ts & ?Tm & ?Tt & ?To & ?Tu & ?Tv & ?Tp & ?Tn & ?Tc & ?Tq & ?Tr).

Section Read.

Variable infix : string.

Lemma lookahead_doubled i :
  (i <? String.length infix - 1) && Ascii.eqb infix.[i + 1] infix.[i] = doubled infix i.
Proof.
  unfold doubled. f_equal.
  destruct (i <? String.length infix - 1) eqn:E1, (i + 1 <? String.length infix) eqn:E2;
    try reflexivity;
    [apply Nat.ltb_lt in E1; apply Nat.ltb_ge in E2|
     apply Nat.ltb_ge in E1; apply Nat.ltb_lt in E2]; lia.
Qed.

Lemma scan_integer_span n : forall i integer,
  i <= fst (scan_integer infix n i integer) /\
  forall j, i <= j < fst (scan_integer infix n i integer) ->
            j < String.length infix /\ kind_of infix.[j] = KDigit.
Proof.
  induction n as [|n IH]; intros i integer; cbn [scan_integer fst].
  - split; [lia|]. intros j Hj. lia.
  - destruct (i <? String.length infix) eqn:Hlt; cbn [andb fst];
      [|split; [lia|intros j Hj; lia]].
    destruct (str_in (str infix.[i]) digits) eqn:Hd; cbn [fst];
      [|split; [lia|intros j Hj; lia]].
    destruct (IH (i + 1) (integer * 10 + int_of_digit infix.[i])%Z) as [Hle Hspan].
    split; [lia|]. intros j Hj.
    destruct (Nat.eq_dec j i) as [->|Hne]; [|apply Hspan; lia].
    split; [apply Nat.ltb_lt, Hlt|]. unfold kind_of. rewrite Hd. reflexivity.
Qed.

Lemma scan_name_span n : forall i var_name,
  i <= fst (scan_name infix n i var_name) /\
  forall j, i <= j < fst (scan_name infix n i var_name) ->
            j < String.length infix /\
            (kind_of infix.[j] = KDigit \/ kind_of infix.[j] = KLetter).
Proof.
  induction n as [|n IH]; intros i var_name; cbn [scan_name fst].
  - split; [lia|]. intros j Hj. lia.
  - destruct (i <? String.length infix) eqn:Hlt; cbn [andb fst];
      [|split; [lia|intros j Hj; lia]].
    destruct (str_in (str infix.[i]) ascii_letters) eqn:Hl; cbn [fst];
      [|split; [lia|intros j Hj; lia]].
    destruct (IH (i + 1) (var_name +:+ str infix.[i])) as [Hle Hspan].
    split; [lia|]. intros j Hj.
    destruct (Nat.eq_dec j i) as [->|Hne]; [|apply Hspan; lia].
    split; [apply Nat.ltb_lt, Hlt|]. unfold kind_of. rewrite Hl.
    destruct (str_in (str infix.[i]) digits); auto.
Qed.

Lemma skip_pluses_span n : forall i,
  i <= skip_pluses infix n i /\
  forall j, i <= j < skip_pluses infix n i ->
            j < String.length infix /\ infix.[j] = "+"%char.
Proof.
  induction n as [|n IH]; intros i; cbn [skip_pluses].
  - split; [lia|]. intros j Hj. lia.
  - destruct (i <? String.length infix) eqn:Hlt; cbn [andb];
      [|split; [lia|intros j Hj; lia]].
    destruct (Ascii.eqb infix.[i] "+") eqn:Hc; [|split; [lia|intros j Hj; lia]].
    destruct (IH (i + 1)) as [Hle Hspan].
    split; [lia|]. intros j Hj.
    destruct (Nat.eq_dec j i) as [->|Hne]; [|apply Hspan; lia].
    split; [apply Nat.ltb_lt, Hlt|apply Ascii.eqb_eq, Hc].
Qed.

Lemma count_minuses_span n : forall i minuses,
  i <= fst (count_minuses infix n i minuses) /\
  forall j, i <= j < fst (count_minuses infix n i minuses) ->
            j < String.length infix /\ infix.[j] = "-"%char.
Proof.
  induction n as [|n IH]; intros i minuses; cbn [count_minuses fst].
  - split; [lia|]. intros j Hj. lia.
  - destruct (i <? String.length infix) eqn:Hlt; cbn [andb fst];
      [|split; [lia|intros j Hj; lia]].
    destruct (Ascii.eqb infix.[i] "-") eqn:Hc; cbn [fst];
      [|split; [lia|intros j Hj; lia]].
    destruct (IH (i + 1) (minuses + 1)) as [Hle Hspan].
    split; [lia|]. intros j Hj.
    destruct (Nat.eq_dec j i) as [->|Hne]; [|apply Hspan; lia].
    split; [apply Nat.ltb_lt, Hlt|apply Ascii.eqb_eq, Hc].
Qed.

End Read.

Section Phases.

Variable infix : string.

Lemma pop_while_opening p stk out :
  (forall s, p s = true -> s <> "(") ->
  opening (fst (pop_while p stk out)) = opening stk.
Proof.
  intros Hp. revert out. induction stk as [|top below IH]; intros out; [reflexivity|].
  cbn [pop_while]. destruct (p top) eqn:E; [|reflexivity].
  rewrite IH. cbn [opening]. apply Hp, String.eqb_neq in E. rewrite E. reflexivity.
Qed.

Lemma pop_while_stop p stk out :
  match fst (pop_while p stk out) with
  | [] => True
  | top :: _ => p top = false
  end.
Proof.
  revert out. induction stk as [|top below IH]; intros out; [exact I|].
  cbn [pop_while]. destruct (p top) eqn:E; [apply IH|exact E].
Qed.

(** A sign that does not start the input and follows no [^], [*], [/] or
    [(] is no leading sign. *)
Lemma leading_sign_inner j :
  j <> 0 ->
  match kind_of infix.[j - 1] with
  | KStar | KSlash | KCaret | KOpen => False
  | _ => True
  end ->
  leading_sign infix j = false.
Proof.
  intros Hj Hprev. unfold leading_sign.
  apply Nat.eqb_neq in Hj. rewrite Hj. by_kind infix.[j - 1].
  rewrite Tv. destruct (kind_of infix.[j - 1]); try contradiction;
    cbn [orb]; apply andb_false_r.
Qed.

Lemma well_placed_plain j :
  match kind_of infix.[j] with
  | KDigit | KLetter | KOpen | KClose => True
  | _ => False
  end ->
  well_placed infix j = true.
Proof.
  intros Hk. unfold well_placed, acceptable, leading_sign. by_kind infix.[j].
  rewrite Td, Tl, Ts, Tt, To.
  destruct (kind_of infix.[j]); try contradiction; reflexivity.
Qed.

Lemma well_placed_times j :
  match kind_of infix.[j] with
  | KStar | KSlash | KCaret => True
  | _ => False
  end ->
  doubled infix j = false ->
  well_placed infix j = true.
Proof.
  intros Hk Hd. unfold well_placed, acceptable, leading_sign. by_kind infix.[j].
  rewrite Td, Tl, Ts, Tt, To, Hd.
  destruct (kind_of infix.[j]); try contradiction; reflexivity.
Qed.

Lemma well_placed_sign j :
  match kind_of infix.[j] with
  | KPlus | KMinus => True
  | _ => False
  end ->
  leading_sign infix j = false \/
  (j + 1 < String.length infix /\ operand_char infix.[j + 1] = true) ->
  well_placed infix j = true.
Proof.
  intros Hk Hs. unfold well_placed, acceptable. by_kind infix.[j].
  rewrite Td, Tl, Tt, To.
  assert (E : (if leading_sign infix j
               then (j + 1 <? String.length infix) && operand_char infix.[j + 1]
               else true) = true).
  { destruct Hs as [-> | [Hlt ->]]; [reflexivity|].
    apply Nat.ltb_lt in Hlt. rewrite Hlt. destruct (leading_sign infix j); reflexivity. }
  rewrite E. destruct (kind_of infix.[j]); try contradiction; reflexivity.
Qed.

(** What the unary part reads. *)
Lemma unary_sign_read st st' :
  pos st < String.length infix ->
  unary_sign infix st = Continue st' ->
  opening (stack st') = opening (stack st) /\
  ((st' = st /\ leading_sign infix (pos st) = false) \/
   (pos st' = pos st + 1 /\
    match kind_of infix.[pos st] with KPlus | KMinus => True | _ => False end /\
    pos st + 1 < String.length infix /\
    operand_char infix.[pos st + 1] = true)).
Proof.
  intros Hlt H. unfold unary_sign in H.
  destruct (str_in (str infix.[pos st]) "+-" &&
            ((pos st =? 0) || str_in (str infix.[pos st - 1]) "^*/+-(")) eqn:Hu.
  - destruct ((pos st =? String.length infix - 1) || _) eqn:Hnext; [discriminate|].
    inversion H; subst st'. cbn [stack pos]. apply orb_false_iff in Hnext as [Hlast Hop].
    split.
    { destruct (Ascii.eqb infix.[pos st] "-"); reflexivity. }
    right. split; [reflexivity|]. apply andb_true_iff in Hu as [Hs _].
    by_kind infix.[pos st]. rewrite Ts in Hs. split.
    { destruct (kind_of infix.[pos st]); try discriminate; exact I. }
    apply Nat.eqb_neq in Hlast. split; [lia|].
    unfold operand_char.
    destruct (str_in (str infix.[pos st + 1]) digits); [reflexivity|].
    destruct (str_in (str infix.[pos st + 1]) ascii_letters); [reflexivity|].
    destruct (Ascii.eqb infix.[pos st + 1] "("); [reflexivity|discriminate].
  - inversion H; subst st'. split; [reflexivity|]. left. split; [reflexivity|].
    unfold leading_sign. by_kind infix.[pos st - 1].
    rewrite Tu in Hu. rewrite Tv.
    destruct (str_in (str infix.[pos st]) "+-"); [|reflexivity].
    cbn [andb] in *. destruct (pos st =? 0); [discriminate|]. cbn [orb] in *.
    destruct (kind_of infix.[pos st - 1]); try discriminate; reflexivity.
Qed.

(** What the operand part reads. *)
Lemma operand_read st st' :
  pos st <= String.length infix ->
  operand infix st = Continue st' ->
  stack st' = stack st /\ pos st <= pos st' <= String.length infix /\
  (forall j, pos st <= j < pos st' ->
             kind_of infix.[j] = KDigit \/ kind_of infix.[j] = KLetter) /\
  (pos st' = pos st -> pos st < String.length infix ->
   match kind_of infix.[pos st] with
   | KDigit | KLetter | KOther => False
   | _ => True
   end).
Proof.
  intros Hle H. unfold operand in H.
  assert (Hlen : forall i', (forall j, pos st <= j < i' -> j < String.length infix) ->
                            pos st <= i' -> i' <= String.length infix).
  { intros i' Hspan Hi'. destruct (Nat.eq_dec i' (pos st)) as [->|Hne]; [exact Hle|].
    specialize (Hspan (i' - 1)). lia. }
  by_kind infix.[pos st]. rewrite Td, Tl, To in H.
  destruct (pos st <? String.length infix) eqn:Hlt; cbn [andb] in H.
  2:{ inversion H; subst st'. apply Nat.ltb_ge in Hlt.
      repeat split; try lia; try (intros; lia). }
  apply Nat.ltb_lt in Hlt.
  destruct (kind_of infix.[pos st]) eqn:K; cbn [orb negb] in H;
    try discriminate H;
    try (inversion H; subst st';
         repeat split; try lia; try (intros; lia); fail).
  - (* a digit *)
    destruct (String.length infix - pos st) as [|n] eqn:Hn; [lia|].
    cbn [scan_integer] in H. apply Nat.ltb_lt in Hlt as Hltb. rewrite Hltb, Td in H.
    cbn [andb] in H.
    destruct (scan_integer_span infix n (pos st + 1)
                (0 * 10 + int_of_digit infix.[pos st])%Z) as [Hge Hspan].
    destruct (scan_integer _ _ _ _) as [i' integer]. cbn [fst] in *.
    inversion H; subst st'. cbn [stack pos].
    assert (Hall : forall j, pos st <= j < i' ->
                             j < String.length infix /\ kind_of infix.[j] = KDigit).
    { intros j Hj. destruct (Nat.eq_dec j (pos st)) as [->|Hne]; [auto|].
      apply Hspan. lia. }
    repeat split; try lia.
    + apply Hlen; [|lia]. intros j Hj. apply Hall, Hj.
    + intros j Hj. left. apply Hall, Hj.
  - (* a letter *)
    destruct (String.length infix - pos st) as [|n] eqn:Hn; [lia|].
    cbn [scan_name] in H. apply Nat.ltb_lt in Hlt as Hltb. rewrite Hltb, Tl in H.
    cbn [andb] in H.
    destruct (scan_name_span infix n (pos st + 1) ("" +:+ str infix.[pos st]))
      as [Hge Hspan].
    destruct (scan_name _ _ _ _) as [i' var_name]. cbn [fst] in *.
    inversion H; subst st'. cbn [stack pos].
    assert (Hall : forall j, pos st <= j < i' ->
                             j < String.length infix /\
                             (kind_of infix.[j] = KDigit \/ kind_of infix.[j] = KLetter)).
    { intros j Hj. destruct (Nat.eq_dec j (pos st)) as [->|Hne]; [auto|].
      apply Hspan. lia. }
    repeat split; try lia.
    + apply Hlen; [|lia]. intros j Hj. apply Hall, Hj.
    + intros j Hj. apply Hall, Hj.
Qed.

(** What the operator part reads: nothing, or an operator or a parenthesis
    with the stack updated for it. *)
Lemma operator_read st st' :
  pos st <= String.length infix ->
  operator infix st = Continue st' ->
  (st' = st /\
   (pos st < String.length infix ->
    match kind_of infix.[pos st] with
    | KDigit | KLetter | KOther => True
    | _ => False
    end)) \/
  (pos st < String.length infix /\ pos st < pos st' <= String.length infix /\
   match kind_of infix.[pos st] with
   | KOpen => pos st' = pos st + 1 /\ opening (stack st') = opening (stack st) + 1
   | KClose => pos st' = pos st + 1 /\ opening (stack st') + 1 = opening (stack st)
   | KStar | KSlash | KCaret =>
       pos st' = pos st + 1 /\ doubled infix (pos st) = false /\
       opening (stack st') = opening (stack st)
   | KPlus | KMinus =>
       (forall j, pos st <= j < pos st' ->
                  kind_of infix.[j] = KPlus \/ kind_of infix.[j] = KMinus) /\
       opening (stack st') = opening (stack st)
   | _ => False
   end).
Proof.
  intros Hle H. unfold operator in H.
  assert (Hclass : forall x, str_in "(" x = false ->
                             forall s, str_in s x = true -> s <> "(").
  { intros x Hno s Hin ->. congruence. }
  by_kind infix.[pos st]. rewrite lookahead_doubled, To, Tm, Tp, Tn, Tc, Tq, Tr in H.
  destruct (pos st <? String.length infix) eqn:Hlt; cbn [andb] in H.
  2:{ inversion H; subst st'. apply Nat.ltb_ge in Hlt. left. split; [reflexivity|lia]. }
  apply Nat.ltb_lt in Hlt.
  destruct (kind_of infix.[pos st]) eqn:K;
    try (inversion H; subst st'; left; split; [reflexivity|intros _; exact I]; fail);
    right; (split; [exact Hlt|]).
  - (* + *)
    pose proof (pop_while_opening (fun top => str_in top "+-*/^#") (stack st) (result st)
                  (Hclass "+-*/^#" eq_refl)) as Hopen.
    destruct (pop_while _ _ _) as [stack' result']. cbn [fst] in Hopen.
    destruct (String.length infix - pos st) as [|n] eqn:Hn; [lia|].
    cbn [skip_pluses] in H. apply Nat.ltb_lt in Hlt as Hltb. rewrite Hltb, Tp in H.
    cbn [andb] in H. destruct (skip_pluses_span infix n (pos st + 1)) as [Hge Hspan].
    inversion H; subst st'. cbn [pos stack opening].
    assert (Hall : forall j, pos st <= j < skip_pluses infix n (pos st + 1) ->
                             j < String.length infix /\ kind_of infix.[j] = KPlus).
    { intros j Hj. destruct (Nat.eq_dec j (pos st)) as [->|Hne]; [auto|].
      destruct (Hspan j) as [Hj1 Hj2]; [lia|]. rewrite Hj2. auto. }
    split; [split; [lia|]|split].
    + destruct (Hall (skip_pluses infix n (pos st + 1) - 1)); lia.
    + intros j Hj. left. apply Hall, Hj.
    + cbn. exact Hopen.
  - (* - *)
    pose proof (pop_while_opening (fun top => str_in top "+-*/^#") (stack st) (result st)
                  (Hclass "+-*/^#" eq_refl)) as Hopen.
    destruct (pop_while _ _ _) as [stack' result']. cbn [fst] in Hopen.
    destruct (String.length infix - pos st) as [|n] eqn:Hn; [lia|].
    cbn [count_minuses] in H. apply Nat.ltb_lt in Hlt as Hltb. rewrite Hltb, Tn in H.
    cbn [andb] in H.
    destruct (count_minuses_span infix n (pos st + 1) (0 + 1)) as [Hge Hspan].
    destruct (count_minuses _ _ _ _) as [i' minuses]. cbn [fst] in *.
    assert (Hall : forall j, pos st <= j < i' ->
                             j < String.length infix /\ kind_of infix.[j] = KMinus).
    { intros j Hj. destruct (Nat.eq_dec j (pos st)) as [->|Hne]; [auto|].
      destruct (Hspan j) as [Hj1 Hj2]; [lia|]. rewrite Hj2. auto. }
    assert (Hend : i' <= String.length infix).
    { destruct (Hall (i' - 1)); lia. }
    destruct (negb _); inversion H; subst st'; cbn [pos stack opening];
      (split; [lia|split; [intros j Hj; right; apply Hall, Hj|cbn; exact Hopen]]).
  - (* * *)
    destruct (doubled infix (pos st)) eqn:Hd; [discriminate|].
    pose proof (pop_while_opening (fun top => str_in top "*/^#") (stack st) (result st)
                  (Hclass "*/^#" eq_refl)) as Hopen.
    destruct (pop_while _ _ _) as [stack' result']. cbn [fst] in Hopen.
    inversion H; subst st'. cbn [pos stack opening].
    split; [lia|]. split; [reflexivity|]. split; [reflexivity|].
    by_kind infix.[pos st]. rewrite K in *.
    replace (String.eqb (str infix.[pos st]) "(") with false; [exact Hopen|].
    symmetry. apply String.eqb_neq. unfold str. intros E. inversion E as [E'].
    rewrite E' in K. vm_compute in K. discriminate.
  - (* / *)
    destruct (doubled infix (pos st)) eqn:Hd; [discriminate|].
    pose proof (pop_while_opening (fun top => str_in top "*/^#") (stack st) (result st)
                  (Hclass "*/^#" eq_refl)) as Hopen.
    destruct (pop_while _ _ _) as [stack' result']. cbn [fst] in Hopen.
    inversion H; subst st'. cbn [pos stack opening].
    split; [lia|]. split; [reflexivity|]. split; [reflexivity|].
    replace (String.eqb (str infix.[pos st]) "(") with false; [exact Hopen|].
    symmetry. apply String.eqb_neq. unfold str. intros E. inversion E as [E'].
    rewrite E' in K. vm_compute in K. discriminate.
  - (* ^ *)
    destruct (doubled infix (pos st)) eqn:Hd; [discriminate|].
    pose proof (pop_while_opening (fun top => String.eqb top "^#") (stack st) (result st))
      as Hopen.
    destruct (pop_while _ _ _) as [stack' result']. cbn [fst] in Hopen.
    inversion H; subst st'. cbn [pos stack opening].
    split; [lia|]. split; [reflexivity|]. split; [reflexivity|].
    replace (String.eqb (str infix.[pos st]) "(") with false.
    + apply Hopen. intros s Hs ->. discriminate.
    + symmetry. apply String.eqb_neq. unfold str. intros E. inversion E as [E'].
      rewrite E' in K. vm_compute in K. discriminate.
  - (* ( *)
    inversion H; subst st'. cbn [pos stack opening]. split; [lia|].
    split; [reflexivity|]. cbn. lia.
  - (* ) *)
    pose proof (pop_while_opening (fun top => negb (String.eqb top "(")) (stack st)
                  (result st)) as Hopen.
    pose proof (pop_while_stop (fun top => negb (String.eqb top "(")) (stack st)
                  (result st)) as Hstop.
    destruct (pop_while _ _ _) as [stack' result']. cbn [fst] in *.
    destruct stack' as [|top below]; [discriminate|].
    inversion H; subst st'. cbn [pos stack]. split; [lia|]. split; [reflexivity|].
    rewrite <- Hopen.
    2:{ intros s Hs. apply negb_true_iff, String.eqb_neq in Hs. exact Hs. }
    apply negb_false_iff in Hstop. cbn [opening]. rewrite Hstop. lia.
Qed.

End Phases.

Section Depth.

Variable infix : string.

Lemma depth_flat i : forall n,
  (forall j, i <= j < i + n ->
             match kind_of infix.[j] with KOpen | KClose => False | _ => True end) ->
  depth infix (i + n) = depth infix i.
Proof.
  induction n as [|n IH]; intros H.
  - rewrite Nat.add_0_r. reflexivity.
  - replace (i + S n) with (S (i + n)) by lia. cbn [depth].
    rewrite IH by (intros j Hj; apply H; lia).
    specialize (H (i + n) ltac:(lia)). by_kind infix.[i + n]. rewrite Tq, Tr.
    destruct (kind_of infix.[i + n]); try contradiction; lia.
Qed.

Lemma depth_flat_between i i' :
  i <= i' ->
  (forall j, i <= j < i' ->
             match kind_of infix.[j] with KOpen | KClose => False | _ => True end) ->
  depth infix i' = depth infix i.
Proof.
  intros Hle H. replace i' with (i + (i' - i)) by lia.
  apply depth_flat. intros j Hj. apply H. lia.
Qed.

Lemma depth_next i :
  depth infix (i + 1) =
  (depth infix i +
   match kind_of infix.[i] with KOpen => 1 | KClose => -1 | _ => 0 end)%Z.
Proof.
  replace (i + 1) with (S i) by lia. cbn [depth].
  by_kind infix.[i]. rewrite Tq, Tr. destruct (kind_of infix.[i]); reflexivity.
Qed.

(** What one iteration reads: characters that are well placed, with a
    parenthesis as the last of them at most, and the stack holds one more
    or one less opening parenthesis for it. *)
Lemma iteration_read st st' :
  pos st < String.length infix ->
  iteration infix st = Continue st' ->
  pos st < pos st' <= String.length infix /\
  (forall j, pos st <= j < pos st' -> well_placed infix j = true) /\
  (forall j, pos st <= j < pos st' -> depth infix j = depth infix (pos st)) /\
  (depth infix (pos st') - depth infix (pos st) =
   Z.of_nat (opening (stack st')) - Z.of_nat (opening (stack st)))%Z.
Proof.
  intros Hlt Hit. pose proof (iteration_progress infix st st' Hlt Hit) as Hprog.
  unfold iteration in Hit.
  destruct (unary_sign infix st) as [|st1] eqn:H1; [discriminate|].
  destruct (operand infix st1) as [|st2] eqn:H2; [discriminate|].
  destruct (unary_sign_read infix st st1 Hlt H1) as [Uopen U].
  assert (Hst1 : pos st <= pos st1 <= String.length infix).
  { destruct U as [[-> _]|(-> & _ & ? & _)]; lia. }
  destruct (operand_read infix st1 st2 ltac:(lia) H2) as (Ostack & Opos & Okind & _).
  destruct (operator_read infix st2 st' ltac:(lia) Hit) as [[-> _]|(Plt & Ppos & P)].
  - (* the operator part read nothing *)
    assert (Hkind : forall j, pos st <= j < pos st2 ->
                              match kind_of infix.[j] with
                              | KPlus | KMinus | KDigit | KLetter => True
                              | _ => False
                              end).
    { intros j Hj. destruct (Nat.lt_ge_cases j (pos st1)) as [Hj1|Hj1].
      - destruct U as [[-> _]|(E & K & _)]; [lia|].
        replace j with (pos st) by lia. destruct (kind_of infix.[pos st]); tauto.
      - destruct (Okind j ltac:(lia)) as [-> | ->]; exact I. }
    assert (Hflat : forall j, pos st <= j <= pos st2 -> depth infix j = depth infix (pos st)).
    { intros j Hj. apply depth_flat_between; [lia|]. intros j' Hj'.
      specialize (Hkind j' ltac:(lia)). destruct (kind_of infix.[j']); tauto. }
    split; [lia|]. split; [|split].
    + intros j Hj. pose proof (Hkind j Hj) as Hk.
      destruct (kind_of infix.[j]) eqn:K; try contradiction;
        try (apply well_placed_plain; rewrite K; exact I);
        (apply well_placed_sign; [rewrite K; exact I|]);
        (destruct (Nat.eq_dec j (pos st)) as [->|Hne];
         [destruct U as [[_ ?]|(_ & _ & ? & ?)]; auto|
          left; apply leading_sign_inner; [lia|];
          specialize (Hkind (j - 1) ltac:(lia));
          destruct (kind_of infix.[j - 1]); tauto]).
    + intros j Hj. apply Hflat. lia.
    + rewrite Hflat by lia. rewrite Ostack, Uopen. lia.
  - (* the operator part read an operator or a parenthesis *)
    assert (Hkind : forall j, pos st <= j < pos st' ->
                              match kind_of infix.[j] with
                              | KPlus | KMinus | KDigit | KLetter => True
                              | KOther => False
                              | _ => j = pos st2 /\ pos st' = pos st2 + 1
                              end).
    { intros j Hj. destruct (Nat.lt_ge_cases j (pos st1)) as [Hj1|Hj1].
      - destruct U as [[-> _]|(E & K & _)]; [lia|].
        replace j with (pos st) by lia. destruct (kind_of infix.[pos st]); tauto.
      - destruct (Nat.lt_ge_cases j (pos st2)) as [Hj2|Hj2].
        + destruct (Okind j ltac:(lia)) as [-> | ->]; exact I.
        + destruct (kind_of infix.[pos st2]) eqn:K2; try contradiction.
          * destruct P as [P _]. destruct (P j ltac:(lia)) as [-> | ->]; exact I.
          * destruct P as [P _]. destruct (P j ltac:(lia)) as [-> | ->]; exact I.
          * destruct P as [P _]. replace j with (pos st2) by lia. rewrite K2. lia.
          * destruct P as [P _]. replace j with (pos st2) by lia. rewrite K2. lia.
          * destruct P as [P _]. replace j with (pos st2) by lia. rewrite K2. lia.
          * destruct P as [P _]. replace j with (pos st2) by lia. rewrite K2. lia.
          * destruct P as [P _]. replace j with (pos st2) by lia. rewrite K2. lia. }
    assert (Hflat : forall j, pos st <= j < pos st' -> depth infix j = depth infix (pos st)).
    { intros j Hj. apply depth_flat_between; [lia|]. intros j' Hj'.
      specialize (Hkind j' ltac:(lia)). destruct (kind_of infix.[j']); try tauto; lia. }
    split; [lia|]. split; [|split].
    + intros j Hj. pose proof (Hkind j Hj) as Hk.
      destruct (kind_of infix.[j]) eqn:K; try contradiction;
        try (apply well_placed_plain; rewrite K; exact I).
      1,2: (apply well_placed_sign; [rewrite K; exact I|]);
        (destruct (Nat.eq_dec j (pos st)) as [->|Hne];
         [destruct U as [[_ ?]|(_ & _ & ? & ?)]; auto|
          left; apply leading_sign_inner; [lia|];
          specialize (Hkind (j - 1) ltac:(lia));
          destruct (kind_of infix.[j - 1]); try tauto; lia]).
      all: destruct Hk as [-> _]; rewrite K in P;
        apply well_placed_times; [rewrite K; exact I|tauto].
    + exact Hflat.
    + rewrite <- Uopen, <- Ostack.
      destruct (kind_of infix.[pos st2]) eqn:K2; try contradiction.
      * destruct P as [Prun Popen].
        replace (pos st') with ((pos st' - 1) + 1) by lia.
        rewrite depth_next, Hflat by lia.
        destruct (Prun (pos st' - 1) ltac:(lia)) as [-> | ->]; lia.
      * destruct P as [Prun Popen].
        replace (pos st') with ((pos st' - 1) + 1) by lia.
        rewrite depth_next, Hflat by lia.
        destruct (Prun (pos st' - 1) ltac:(lia)) as [-> | ->]; lia.
      * destruct P as (E & _ & Popen). rewrite E, depth_next, Hflat, K2 by lia. lia.
      * destruct P as (E & _ & Popen). rewrite E, depth_next, Hflat, K2 by lia. lia.
      * destruct P as (E & _ & Popen). rewrite E, depth_next, Hflat, K2 by lia. lia.
      * destruct P as (E & Popen). rewrite E, depth_next, Hflat, K2 by lia. lia.
      * destruct P as (E & Popen). rewrite E, depth_next, Hflat, K2 by lia. lia.
Qed.

End Depth.

Section Accepted.

Variable infix : string.

Lemma drain_opening stk : forall out l, drain stk out = Rpn l -> opening stk = 0.
Proof.
  induction stk as [|top below IH]; intros out l H; [reflexivity|].
  cbn [drain] in H. cbn [opening]. destruct (String.eqb top "("); [discriminate|].
  rewrite (IH _ _ H). reflexivity.
Qed.

(** A run of the loop that returns a list has read well placed characters
    only, and the parentheses it has read match those on the stack. *)
Lemma scan_read fuel : forall st l,
  pos st <= String.length infix ->
  scan infix fuel st = Some (Rpn l) ->
  (forall j, pos st <= j < String.length infix -> well_placed infix j = true) /\
  (depth infix (String.length infix) =
   depth infix (pos st) - Z.of_nat (opening (stack st)))%Z /\
  (forall j, pos st <= j <= String.length infix ->
             (depth infix (pos st) - Z.of_nat (opening (stack st)) <= depth infix j)%Z).
Proof.
  induction fuel as [|fuel IH]; intros st l Hle H; cbn [scan] in H;
    destruct (pos st <? String.length infix) eqn:Hlt; try discriminate H.
  1,3: apply Nat.ltb_ge in Hlt; inversion H as [Hd]; apply drain_opening in Hd;
    replace (pos st) with (String.length infix) by lia; rewrite Hd;
    (split; [intros j Hj; lia|split; [lia|]]);
    intros j Hj; replace j with (String.length infix) by lia; lia.
  apply Nat.ltb_lt in Hlt.
  destruct (iteration infix st) as [|st'] eqn:Hit; [discriminate|].
  destruct (iteration_read infix st st' Hlt Hit) as (Hpos & Hplaced & Hflat & Hdepth).
  destruct (IH st' l ltac:(lia) H) as (IHplaced & IHend & IHprefix).
  split; [|split].
  - intros j Hj. destruct (Nat.lt_ge_cases j (pos st')); [apply Hplaced|apply IHplaced]; lia.
  - lia.
  - intros j Hj. destruct (Nat.lt_ge_cases j (pos st')) as [Hj'|Hj'].
    + rewrite (Hflat j) by lia. lia.
    + specialize (IHprefix j ltac:(lia)). lia.
Qed.

Lemma infix_to_rpn_read l :
  infix_to_rpn infix = Rpn l ->
  (forall j, j < String.length infix -> well_placed infix j = true) /\
  depth infix (String.length infix) = 0%Z /\
  (forall j, j <= String.length infix -> (0 <= depth infix j)%Z).
Proof.
  intros H. apply infix_to_rpn_scan in H.
  destruct (scan_read _ initial l ltac:(cbn; lia) H) as (Hplaced & Hend & Hprefix).
  cbn [initial pos stack opening depth] in *.
  split; [|split].
  - intros j Hj. apply Hplaced. lia.
  - lia.
  - intros j Hj. specialize (Hprefix j ltac:(lia)). lia.
Qed.

End Accepted.

(** An input with a character that is not well placed is refused. *)
Lemma infix_to_rpn_refused infix j :
  j < String.length infix -> well_placed infix j = false ->
  infix_to_rpn infix = Error.
Proof.
  intros Hj Hbad. destruct (infix_to_rpn infix) as [|l] eqn:H; [reflexivity|].
  destruct (infix_to_rpn_read infix l H) as [Hplaced _].
  rewrite (Hplaced j Hj) in Hbad. discriminate.
Qed.

(** * The evaluator on a dictionary of integers *)

Section Integers.

Variable variables : gmap string value.
Hypothesis Hvariables : integers_only variables.

Lemma apply_token_integers tok stack :
  Forall is_integer stack ->
  match apply_token variables tok stack with
  | Value (Next stack') => Forall is_integer stack'
  | Value (Return v) => v = invalid_expression \/ v = unknown_variable
  | Raised ZeroDivisionError => True
  | Raised _ => False
  | Float => True
  end.
Proof.
  intros Hstack. destruct tok as [n|s]; cbn [apply_token].
  { constructor; [exact I|exact Hstack]. }
  destruct (String.eqb s "#").
  { destruct Hstack as [|[x|x] below Hx Hbelow]; [auto|(cbn [push py_mul py_add py_sub py_floordiv]; constructor; [exact I|exact Hbelow]) |destruct Hx].
  }
  destruct (str_in s "+-*/^").
  - destruct Hstack as [|[x|x] below Hx Hbelow]; [auto| |destruct Hx].
    destruct Hbelow as [|[y|y] below Hy Hbelow]; [auto| |destruct Hy].
    destruct (String.eqb s "+"); [(cbn [push py_mul py_add py_sub py_floordiv]; constructor; [exact I|exact Hbelow])|].
    destruct (String.eqb s "*"); [(cbn [push py_mul py_add py_sub py_floordiv]; constructor; [exact I|exact Hbelow])|].
    destruct (String.eqb s "^").
    { cbn [py_pow]. destruct (0 <=? x)%Z; [(cbn [push py_mul py_add py_sub py_floordiv]; constructor; [exact I|exact Hbelow])|].
      destruct (y =? 0)%Z; exact I. }
    destruct (String.eqb s "-"); [(cbn [push py_mul py_add py_sub py_floordiv]; constructor; [exact I|exact Hbelow])|].
    destruct (String.eqb s "/").
    { cbn [py_is_zero]. destruct (x =? 0)%Z; [auto|(cbn [push py_mul py_add py_sub py_floordiv]; constructor; [exact I|exact Hbelow])]. }
    repeat constructor; assumption.
  - destruct (variables !! s) as [v|] eqn:Hv; [|auto].
    destruct (Hvariables s v Hv) as [z ->]. constructor; [exact I|exact Hstack].
Qed.

Lemma eval_loop_integers rpn_list : forall stack,
  Forall is_integer stack -> integer_result (eval_loop variables rpn_list stack).
Proof.
  induction rpn_list as [|tok rest IH]; intros stack Hstack; cbn [eval_loop].
  - unfold finish. destruct (1 <? length stack); [cbn; auto|].
    destruct Hstack as [|[x|x] below Hx _]; [cbn; auto|exact I|destruct Hx].
  - pose proof (apply_token_integers tok stack Hstack) as H.
    destruct (apply_token variables tok stack) as [[v|stack']|[]|]; try exact I;
      try contradiction.
    + destruct H as [-> | ->]; cbn; auto.
    + apply IH, H.
Qed.

End Integers.

(** No part of the evaluation indexes a sequence out of its range. *)
Lemma eval_loop_no_index_error variables rpn_list : forall stack,
  eval_loop variables rpn_list stack <> Raised IndexError.
Proof.
  assert (Hadd : forall x y stk, push (py_add x y) stk <> Raised IndexError)
    by (intros [?|?] [?|?] stk; discriminate).
  assert (Hmul : forall x y stk, push (py_mul x y) stk <> Raised IndexError)
    by (intros [?|?] [?|?] stk; discriminate).
  assert (Hsub : forall x y stk, push (py_sub x y) stk <> Raised IndexError)
    by (intros [?|?] [?|?] stk; discriminate).
  assert (Hdiv : forall x y stk, push (py_floordiv x y) stk <> Raised IndexError)
    by (intros [?|?] [?|?] stk; discriminate).
  assert (Hpow : forall x y stk, push (py_pow x y) stk <> Raised IndexError).
  { intros [x|x] [y|y] stk; try discriminate. cbn [py_pow].
    destruct (0 <=? y)%Z; [discriminate|]. destruct (x =? 0)%Z; discriminate. }
  induction rpn_list as [|tok rest IH]; intros stack; cbn [eval_loop]; [discriminate|].
  destruct (apply_token variables tok stack) as [[v|stack']|e|] eqn:H;
    try discriminate; [apply IH|].
  intros E. inversion E; subst e. revert H. destruct tok as [n|s]; cbn [apply_token];
    [discriminate|].
  destruct (String.eqb s "#").
  { destruct stack as [|top below]; [discriminate|]. apply Hmul. }
  destruct (str_in s "+-*/^").
  - destruct stack as [|top [|second below]]; try discriminate.
    destruct (String.eqb s "+"); [apply Hadd|].
    destruct (String.eqb s "*"); [apply Hmul|].
    destruct (String.eqb s "^"); [apply Hpow|].
    destruct (String.eqb s "-"); [apply Hsub|].
    destruct (String.eqb s "/"); [|discriminate].
    destruct (py_is_zero top); [discriminate|apply Hdiv].
  - destruct (variables !! s); discriminate.
Qed.

(** * Names *)

Lemma name_is_no_operator name :
  ascii_name name = true ->
  String.eqb name "#" = false /\ str_in name "+-*/^" = false.
Proof.
  unfold ascii_name. destruct name as [|c name]; [discriminate|].
  cbn [negb andb String.eqb ascii_letters_only]. intros H.
  apply andb_true_iff in H as [Hc _]. split.
  - destruct (Ascii.eqb c "#") eqn:E; [|reflexivity].
    apply Ascii.eqb_eq in E. subst c. vm_compute in Hc. discriminate.
  - unfold str_in. cbn [String.prefix].
    repeat match goal with
           | |- context [ascii_dec c ?d] =>
               destruct (ascii_dec c d) as [->|_];
               [vm_compute in Hc; discriminate|]
           end.
    reflexivity.
Qed.

Lemma apply_token_name variables name stack :
  ascii_name name = true ->
  apply_token variables (TStr name) stack =
  match variables !! name with
  | Some v => Value (Next (v :: stack))
  | None => Value (Return unknown_variable)
  end.
Proof.
  intros H. destruct (name_is_no_operator name H) as [H1 H2].
  cbn [apply_token]. rewrite H1, H2. reflexivity.
Qed.

Lemma ascii_letter_alphabetic c :
  str_in (str c) ascii_letters = true -> alphabetic c = true.
Proof. destruct c as [[] [] [] [] [] [] [] []]; vm_compute; congruence. Qed.

Lemma ascii_name_isalpha name : ascii_name name = true -> isalpha name = true.
Proof.
  unfold ascii_name, isalpha. intros H. apply andb_true_iff in H as [-> H].
  cbn [andb]. induction name as [|c name IH]; [reflexivity|].
  cbn [ascii_letters_only all_alphabetic] in *. apply andb_true_iff in H as [Hc H].
  rewrite (ascii_letter_alphabetic c Hc), (IH H). reflexivity.
Qed.

Section Names.

Variable infix : string.

(** The letters of a name are read whole. *)
Lemma scan_name_whole name : forall pre rest n var_name,
  infix = pre +:+ name +:+ rest ->
  ascii_letters_only name = true ->
  match rest with "" => True | String c _ => str_in (str c) ascii_letters = false end ->
  String.length name <= n ->
  scan_name infix n (String.length pre) var_name =
  (String.length pre + String.length name, var_name +:+ name).
Proof.
  induction name as [|c name IH]; intros pre rest n var_name Hinfix Hname Hrest Hn.
  - change ("" +:+ rest) with rest in Hinfix. cbn [String.length].
    rewrite Nat.add_0_r, str_app_nil_r.
    destruct n as [|n]; [reflexivity|]. cbn [scan_name].
    destruct rest as [|c rest].
    + rewrite (view_end infix pre); [reflexivity| |reflexivity].
      rewrite Hinfix. apply str_app_nil_r.
    + rewrite (view_char infix pre _ c rest Hinfix eq_refl).
      rewrite Hrest, andb_false_r. reflexivity.
  - cbn [String.length] in Hn. destruct n as [|n]; [lia|]. cbn [scan_name].
    rewrite str_app_cons in Hinfix.
    rewrite (view_char infix pre _ _ _ Hinfix eq_refl).
    rewrite (view_inside infix pre _ _ _ Hinfix eq_refl).
    cbn [ascii_letters_only] in Hname. apply andb_true_iff in Hname as [Hc Hname].
    rewrite Hc. cbn [andb].
    replace (String.length pre + 1) with (String.length (pre +:+ str c)) by positions.
    rewrite (IH (pre +:+ str c) rest n); [|reassoc|assumption|assumption|lia].
    f_equal; [positions|reassoc].
Qed.

End Names.

(** A name alone is converted to itself. *)
Lemma infix_to_rpn_name name :
  ascii_name name = true -> infix_to_rpn name = Rpn [TStr name].
Proof.
  intros H. apply (scan_infix_to_rpn name 1).
  unfold ascii_name in H. apply andb_true_iff in H as [Hne Hletters].
  destruct name as [|c name]; [discriminate|].
  assert (Hc : str_in (str c) ascii_letters = true).
  { cbn [ascii_letters_only] in Hletters. apply andb_true_iff in Hletters. tauto. }
  assert (Hview : String c name = "" +:+ String c name) by reflexivity.
  assert (Hview' : String c name = "" +:+ String c name +:+ "")
    by (symmetry; apply str_app_nil_r).
  cbn [scan initial pos]. change (0 <? String.length (String c name)) with true.
  cbv iota. unfold iteration, initial.
  rewrite (unary_sign_idle (String c name) "" 0 [] [] eq_refl c name Hview).
  2:{ by_kind c. rewrite Tl in Hc. rewrite Ts. destruct (kind_of c); congruence. }
  unfold operand. cbn [pos result stack].
  rewrite (view_char _ "" 0 c name Hview eq_refl).
  rewrite (view_inside _ "" 0 c name Hview eq_refl), Hc, orb_true_r. cbn [andb].
  assert (Hd : str_in (str c) digits = false).
  { by_kind c. rewrite Tl in Hc. rewrite Td. destruct (kind_of c); congruence. }
  rewrite Hd.
  rewrite (scan_name_whole (String c name) (String c name) "" "" _ "" Hview' Hletters I);
    [|cbn [String.length]; lia].
  cbn [String.length Nat.add app String.append].
  unfold operator. cbn [pos result stack].
  rewrite Nat.ltb_irrefl. cbn [andb pos result stack]. rewrite Nat.ltb_irrefl.
  reflexivity.
Qed.

Lemma parse_expression_name variables name :
  ascii_name name = true ->
  parse_expression variables name =
  match variables !! name with
  | Some v => Value v
  | None => Value unknown_variable
  end.
Proof.
  intros H. unfold parse_expression, rpn_to_result.
  rewrite (infix_to_rpn_name name H). cbn [eval_loop].
  rewrite (apply_token_name variables name [] H).
  destruct (variables !! name); reflexivity.
Qed.

(** * Assignments *)

Lemma str_in_char_cons x c rest :
  str_in (str x) (String c rest) = Ascii.eqb x c || str_in (str x) rest.
Proof.
  change (str_in (str x) (String c rest))
    with (String.prefix (str x) (String c rest) || str_in (str x) rest).
  f_equal. cbn [String.prefix str].
  destruct (ascii_dec x c) as [->|Hne].
  - rewrite Ascii.eqb_refl. destruct rest; reflexivity.
  - apply Ascii.eqb_neq in Hne. rewrite Hne. reflexivity.
Qed.

(** The line is cut at its first [=]. *)
Lemma split_assignment_at line0 line1 :
  str_in "=" line0 = false ->
  split_assignment (line0 +:+ "=" +:+ line1) = [line0; line1].
Proof.
  induction line0 as [|c line0 IH]; intros H; [reflexivity|].
  change "=" with (str "=") in H. rewrite str_in_char_cons in H.
  apply orb_false_iff in H as [Hc H].
  rewrite str_app_cons. cbn [split_assignment].
  rewrite Ascii.eqb_sym, Hc, (IH H). reflexivity.
Qed.

Lemma split_assignment_shape line :
  (split_assignment line = [line] /\ str_in "=" line = false) \/
  (exists line0 line1,
     split_assignment line = [line0; line1] /\ line = line0 +:+ "=" +:+ line1 /\
     str_in "=" line0 = false).
Proof.
  induction line as [|c line IH]; [left; split; reflexivity|].
  change "=" with (str "="). rewrite str_in_char_cons. cbn [split_assignment].
  destruct (Ascii.eqb c "=") eqn:E.
  - right. exists "", line. apply Ascii.eqb_eq in E. subst c.
    repeat split; reflexivity.
  - rewrite Ascii.eqb_sym, E. cbn [orb].
    destruct IH as [[-> Hno]|(line0 & line1 & -> & -> & Hno)].
    + left. split; [reflexivity|exact Hno].
    + right. exists (String c line0), line1. repeat split.
      change "=" with (str "="). rewrite str_in_char_cons, Ascii.eqb_sym, E. exact Hno.
Qed.

(** What an assignment can do: print one of four messages and leave the
    dictionary, or print nothing and bind the left-hand side to the value
    of the right-hand side. *)
Lemma parse_assignment_cases variables line variables' out :
  parse_assignment variables line = Value (variables', out) ->
  (variables' = variables /\
   In out [[say "Invalid expression"]; [say "Invalid identifier"];
           [say "Invalid assignment"]; [say "Unknown variable"]]) \/
  (out = [] /\
   exists line0 line1 result,
     split_assignment line = [line0; line1] /\ isalpha line0 = true /\
     parse_expression variables line1 = Value result /\
     is_error_message result = false /\
     variables' = <[line0 := result]> variables).
Proof.
  unfold parse_assignment. intros H.
  destruct (split_assignment_shape line) as [[Hs _]|(line0 & line1 & Hs & _ & _)];
    rewrite Hs in H.
  - destruct (String.eqb line ""); [inversion H; left; cbn; auto|].
    destruct (isalpha line); cbn [negb] in H; [discriminate|].
    inversion H; left; cbn; auto.
  - destruct (String.eqb line0 ""); [inversion H; left; cbn; auto|].
    destruct (isalpha line0) eqn:H0; cbn [negb] in H; [|inversion H; left; cbn; auto].
    destruct (String.eqb line1 ""); [inversion H; left; cbn; auto|].
    destruct (_ && _); [inversion H; left; cbn; auto 6|].
    destruct (parse_expression variables line1) as [result| |] eqn:Hr; try discriminate.
    destruct (is_error_message result) eqn:He; [inversion H; left; cbn; auto 6|].
    inversion H. right. split; [reflexivity|].
    exists line0, line1, result. auto.
Qed.

(** * White space *)

Lemma remove_whitespace_app a b :
  remove_whitespace (a +:+ b) = remove_whitespace a +:+ remove_whitespace b.
Proof.
  induction a as [|c a IH]; [reflexivity|].
  rewrite str_app_cons. cbn [remove_whitespace]. rewrite IH.
  destruct (whitespace c); reflexivity.
Qed.

Lemma remove_whitespace_blank ws :
  all_whitespace ws = true -> remove_whitespace ws = "".
Proof.
  induction ws as [|c ws IH]; [reflexivity|].
  cbn [all_whitespace remove_whitespace]. intros H.
  apply andb_true_iff in H as [-> H]. apply IH, H.
Qed.

(** * A sign before an operand *)

Lemma converges_unary infix st st1 r :
  unary_sign infix st = Continue st1 ->
  unary_sign infix st1 = Continue st1 ->
  pos st < String.length infix -> pos st1 < String.length infix ->
  converges infix st1 r -> converges infix st r.
Proof.
  intros Hu Hu1 Hlt Hlt1 [fuel Hfuel]. exists fuel.
  apply Nat.ltb_lt in Hlt, Hlt1.
  destruct fuel as [|fuel]; cbn [scan] in *; rewrite Hlt1 in Hfuel; [discriminate|].
  rewrite Hlt. unfold iteration in *. rewrite Hu. rewrite Hu1 in Hfuel. exact Hfuel.
Qed.

Lemma infix_to_rpn_signed c a :
  c = "+"%char \/ c = "-"%char ->
  infix_to_rpn (String c (text_atom a)) =
  Rpn (postfix_atom a ++ (if Ascii.eqb c "-" then [TStr "#"] else [])).
Proof.
  intros Hc. destruct reads_grammar as (Hatom & _).
  set (infix := String c (text_atom a)).
  set (stk := if Ascii.eqb c "-" then ["#"] else []).
  destruct (text_atom_start a) as (x & s' & Htext & Hx).
  assert (Hview : infix = "" +:+ String c (String x s')).
  { unfold infix. rewrite Htext. reflexivity. }
  assert (H : converges infix initial
                (Rpn (postfix_atom a ++ (if Ascii.eqb c "-" then [TStr "#"] else [])))).
  { apply (converges_unary infix initial (State 1 [] stk)).
    - rewrite Hview. change ("" +:+ String c (String x s')) with (String c (String x s')).
      unfold unary_sign, initial, char_at.
      cbn [pos result stack String.get Nat.add Nat.sub String.length Nat.eqb orb].
      replace (str_in (str c) "+-") with true by (destruct Hc as [-> | ->]; reflexivity).
      cbn [andb]. unfold stk.
      destruct Hx as [Hx | ->].
      + rewrite Hx. cbn [negb andb]. reflexivity.
      + replace (negb (str_in (str "(") digits)) with true by reflexivity.
        replace (negb (str_in (str "(") ascii_letters)) with true by reflexivity.
        reflexivity.
    - apply (unary_sign_idle infix (str c) 1 [] stk eq_refl x s').
      + unfold infix. rewrite Htext. reflexivity.
      + destruct Hx as [Hx | ->]; [|reflexivity].
        by_kind x. rewrite Td in Hx. rewrite Ts. destruct (kind_of x); congruence.
    - unfold infix. cbn [initial pos String.length]. lia.
    - unfold infix. rewrite Htext. cbn [pos String.length]. lia.
    - apply (Hatom a infix (str c) "" 1 [] stk); [|reflexivity|exact I|].
      { unfold infix. rewrite str_app_nil_r. reflexivity. }
      pose proof (resumes_end infix
                    (State (1 + String.length (text_atom a)) ([] ++ postfix_atom a) stk))
        as Hend.
      cbn [pos stack result app] in Hend.
      replace (drain stk (postfix_atom a))
        with (Rpn (postfix_atom a ++ (if Ascii.eqb c "-" then [TStr "#"] else [])))
        in Hend.
      + apply Hend. unfold infix. cbn [String.length]. lia.
      + unfold stk. destruct (Ascii.eqb c "-"); cbn [drain String.eqb Ascii.eqb];
          [reflexivity|rewrite app_nil_r; reflexivity]. }
  destruct H as [fuel Hfuel]. eapply scan_infix_to_rpn. exact Hfuel.
Qed.

(** * Further properties of the conversion *)

(** X1.  An input with a character that is no digit, no letter of
    [string.ascii_letters], no operator and no parenthesis is refused,
    wherever the character stands. *)
Theorem unacceptable_character_refused :
  forall variables pre c rest,
    acceptable c = false ->
    infix_to_rpn (pre +:+ String c rest) = Error /\
    parse_expression variables (pre +:+ String c rest) = Value invalid_expression.
Proof.
  intros variables pre c rest Hc.
  assert (H : infix_to_rpn (pre +:+ String c rest) = Error).
  { apply (infix_to_rpn_refused _ (String.length pre)).
    - rewrite str_length_app. cbn [String.length]. lia.
    - unfold well_placed.
      rewrite (view_char _ pre (String.length pre) c rest eq_refl eq_refl), Hc.
      reflexivity. }
  split; [exact H|]. unfold parse_expression. rewrite H. reflexivity.
Qed.

Lemma unacceptable_character_refused_witness :
  acceptable "$" = false /\
  parse_expression ∅ ("2+" +:+ String "$" "3") = Value invalid_expression.
Proof.
  split; [reflexivity|].
  apply (unacceptable_character_refused ∅ "2+" "$" "3"). reflexivity.
Defined.

(** X2.  An input in which [*], [/] or [^] is followed by a copy of itself
    is refused, wherever the pair stands. *)
Theorem doubled_operator_refused :
  forall pre c rest,
    In c ["*"; "/"; "^"]%char ->
    infix_to_rpn (pre +:+ String c (String c rest)) = Error.
Proof.
  intros pre c rest Hc.
  apply (infix_to_rpn_refused _ (String.length pre)).
  - rewrite str_length_app. cbn [String.length]. lia.
  - unfold well_placed.
    rewrite <- (lookahead_doubled _ (String.length pre)).
    rewrite (view_char _ pre (String.length pre) c _ eq_refl eq_refl).
    rewrite (view_lookahead _ pre (String.length pre) c (String c rest) c eq_refl eq_refl).
    cbn [next_is]. rewrite Ascii.eqb_refl.
    cbn [In] in Hc. destruct Hc as [<-|[<-|[<-|[]]]]; reflexivity.
Qed.

Lemma doubled_operator_refused_witness :
  In "*"%char ["*"; "/"; "^"]%char /\
  infix_to_rpn ("2" +:+ String "*" (String "*" "3")) = Error.
Proof.
  assert (H : In "*"%char ["*"; "/"; "^"]%char) by (left; reflexivity).
  split; [exact H|]. exact (doubled_operator_refused "2" "*" "3" H).
Defined.

(** X3.  An input that is converted has balanced parentheses: as many
    closing as opening ones, and in no prefix more closing than opening. *)
Theorem accepted_parentheses_balanced :
  forall infix l,
    infix_to_rpn infix = Rpn l ->
    depth infix (String.length infix) = 0%Z /\
    forall j, j <= String.length infix -> (0 <= depth infix j)%Z.
Proof.
  intros infix l H. destruct (infix_to_rpn_read infix l H) as (_ & Hend & Hprefix).
  split; assumption.
Qed.

Lemma accepted_parentheses_balanced_witness :
  infix_to_rpn "(2+3)*4" = Rpn [TInt 2; TInt 3; TStr "+"; TInt 4; TStr "*"] /\
  depth "(2+3)*4" (String.length "(2+3)*4") = 0%Z.
Proof.
  assert (H : infix_to_rpn "(2+3)*4" = Rpn [TInt 2; TInt 3; TStr "+"; TInt 4; TStr "*"])
    by (vm_compute; reflexivity).
  split; [exact H|]. exact (proj1 (accepted_parentheses_balanced _ _ H)).
Defined.

(** X4.  The list the conversion returns holds integers that are not
    negative, names made of letters and the operators [+ - * / ^ #], and no
    parenthesis. *)
Theorem conversion_emits_postfix_tokens :
  forall infix l, infix_to_rpn infix = Rpn l -> Forall postfix_token l.
Proof.
  intros infix l H. apply infix_to_rpn_scan in H.
  apply (scan_emits infix _ initial l H). split; constructor.
Qed.

Lemma conversion_emits_postfix_tokens_witness :
  infix_to_rpn "-(ab+2)" = Rpn [TStr "ab"; TInt 2; TStr "+"; TStr "#"] /\
  Forall postfix_token [TStr "ab"; TInt 2; TStr "+"; TStr "#"].
Proof.
  assert (H : infix_to_rpn "-(ab+2)" = Rpn [TStr "ab"; TInt 2; TStr "+"; TStr "#"])
    by (vm_compute; reflexivity).
  split; [exact H|]. exact (conversion_emits_postfix_tokens _ _ H).
Defined.

(** X5.  A sign that starts the input or follows [^], [*], [/] or [(] needs
    a digit, a letter or an opening parenthesis right after it: without
    one, or at the end of the input, the input is refused. *)
Theorem leading_sign_needs_operand :
  forall pre c rest,
    In c ["+"; "-"]%char ->
    pre = "" \/ (exists pre' o, pre = pre' +:+ str o /\ In o ["^"; "*"; "/"; "("]%char) ->
    match rest with
    | EmptyString => True
    | String x _ => operand_char x = false
    end ->
    infix_to_rpn (pre +:+ String c rest) = Error.
Proof.
  intros pre c rest Hc Hpre Hrest.
  apply (infix_to_rpn_refused _ (String.length pre)).
  - rewrite str_length_app. cbn [String.length]. lia.
  - unfold well_placed, leading_sign.
    rewrite (view_char _ pre (String.length pre) c rest eq_refl eq_refl).
    assert (Hsign : str_in (str c) "+-" = true).
    { cbn [In] in Hc. destruct Hc as [<-|[<-|[]]]; reflexivity. }
    assert (Hplace : (String.length pre =? 0) ||
                     str_in (str (pre +:+ String c rest).[String.length pre - 1]) "^*/("
                     = true).
    { destruct Hpre as [->|(pre' & o & -> & Ho)]; [reflexivity|].
      destruct (view_previous (((pre' +:+ str o) +:+ String c rest)) (pre' +:+ str o)
                  (String.length (pre' +:+ str o)) pre' o (String c rest)
                  eq_refl eq_refl eq_refl) as [-> ->].
      cbn [In] in Ho. destruct Ho as [<-|[<-|[<-|[<-|[]]]]]; reflexivity. }
    rewrite Hsign, Hplace. cbn [andb].
    assert (Hnext : (String.length pre + 1 <? String.length (pre +:+ String c rest)) &&
                    operand_char (pre +:+ String c rest).[String.length pre + 1] = false).
    { destruct rest as [|x rest].
      - replace (_ <? _) with false; [reflexivity|]. symmetry. apply Nat.ltb_ge.
        rewrite str_length_app. cbn [String.length]. lia.
      - replace ((pre +:+ String c (String x rest)).[String.length pre + 1]) with x.
        + rewrite Hrest. apply andb_false_r.
        + symmetry. apply (view_char _ (pre +:+ str c) _ x rest); [reassoc|positions]. }
    rewrite Hnext. apply andb_false_r.
Qed.

Lemma leading_sign_needs_operand_witness :
  In "-"%char ["+"; "-"]%char /\
  (exists pre' o, "2*" = pre' +:+ str o /\ In o ["^"; "*"; "/"; "("]%char) /\
  infix_to_rpn ("2*" +:+ String "-" ")") = Error.
Proof.
  assert (H1 : In "-"%char ["+"; "-"]%char) by (right; left; reflexivity).
  assert (H2 : exists pre' o, "2*" = pre' +:+ str o /\ In o ["^"; "*"; "/"; "("]%char).
  { exists "2", "*"%char. split; [reflexivity|right; left; reflexivity]. }
  split; [exact H1|split; [exact H2|]].
  apply (leading_sign_needs_operand "2*" "-" ")" H1 (or_intror H2)). reflexivity.
Defined.

(** X16.  An iteration that goes on leaves the index after the place it
    found it and not after the end of the input. *)
Theorem iteration_in_bounds :
  forall infix st st',
    pos st < String.length infix ->
    iteration infix st = Continue st' ->
    pos st < pos st' <= String.length infix.
Proof.
  intros infix st st' Hlt H. apply (iteration_read infix st st' Hlt H).
Qed.

Lemma iteration_in_bounds_witness :
  pos initial < String.length "12+3" /\
  iteration "12+3" initial = Continue (State 3 [TInt 12] ["+"]) /\
  pos initial < 3 <= String.length "12+3".
Proof.
  assert (H1 : pos initial < String.length "12+3") by (cbn; lia).
  assert (H2 : iteration "12+3" initial = Continue (State 3 [TInt 12] ["+"]))
    by (vm_compute; reflexivity).
  split; [exact H1|split; [exact H2|]].
  exact (iteration_in_bounds "12+3" initial _ H1 H2).
Defined.

(** * Further properties of the evaluation and of the session *)

Lemma parse_expression_integers variables :
  integers_only variables ->
  forall infix, integer_result (parse_expression variables infix).
Proof.
  intros Hvariables infix. unfold parse_expression.
  destruct (infix_to_rpn infix); [cbn; auto|].
  apply eval_loop_integers; [exact Hvariables|constructor].
Qed.



(** X7.  A name of letters evaluates to the value the dictionary holds for
    it, and to ["Unknown variable"] when the dictionary has none. *)
Theorem name_lookup :
  forall variables name,
    ascii_name name = true ->
    parse_expression variables name =
    match variables !! name with
    | Some v => Value v
    | None => Value unknown_variable
    end.
Proof. intros variables name H. apply parse_expression_name, H. Qed.

Lemma name_lookup_witness :
  ascii_name "rate" = true /\
  parse_expression ∅ "rate" =
  match (∅ : gmap string value) !! "rate" with
  | Some v => Value v
  | None => Value unknown_variable
  end.
Proof.
  split; [reflexivity|]. apply (name_lookup ∅ "rate"). reflexivity.
Defined.

(** X8.  An assignment that returns either prints one of four messages and
    leaves the dictionary as it was, or prints nothing and binds the
    left-hand side to the value of the right-hand side, all other names
    keeping their values. *)
Theorem assignment_frame :
  forall variables line variables' out,
    parse_assignment variables line = Value (variables', out) ->
    (variables' = variables /\
     In out [[say "Invalid expression"]; [say "Invalid identifier"];
             [say "Invalid assignment"]; [say "Unknown variable"]]) \/
    (out = [] /\
     exists line0 line1 result,
       split_assignment line = [line0; line1] /\ isalpha line0 = true /\
       parse_expression variables line1 = Value result /\
       variables' !! line0 = Some result /\
       forall other, other <> line0 -> variables' !! other = variables !! other).
Proof.
  intros variables line variables' out H.
  destruct (parse_assignment_cases _ _ _ _ H)
    as [Hfail|(-> & line0 & line1 & result & Hs & H0 & Hr & _ & ->)];
    [left; exact Hfail|right].
  split; [reflexivity|]. exists line0, line1, result.
  split; [exact Hs|split; [exact H0|split; [exact Hr|split]]].
  - apply lookup_insert_eq.
  - intros other Hother. apply lookup_insert_ne. congruence.
Qed.

Lemma assignment_frame_witness :
  parse_assignment ∅ "n=2*3" = Value (<["n" := VInt 6]> ∅, []) /\
  ((<["n" := VInt 6]> ∅ = (∅ : gmap string value) /\
    In ([] : list printed)
       [[say "Invalid expression"]; [say "Invalid identifier"];
        [say "Invalid assignment"]; [say "Unknown variable"]]) \/
   (([] : list printed) = [] /\
    exists line0 line1 result,
      split_assignment "n=2*3" = [line0; line1] /\ isalpha line0 = true /\
      parse_expression ∅ line1 = Value result /\
      (<["n" := VInt 6]> ∅ : gmap string value) !! line0 = Some result /\
      forall other, other <> line0 ->
                    (<["n" := VInt 6]> ∅ : gmap string value) !! other =
                    (∅ : gmap string value) !! other)).
Proof.
  assert (H : parse_assignment ∅ "n=2*3" = Value (<["n" := VInt 6]> ∅, []))
    by (vm_compute; reflexivity).
  split; [exact H|]. exact (assignment_frame _ _ _ _ H).
Defined.

(** X9.  After an assignment to a name of letters that printed nothing, the
    name evaluates to the value the right-hand side had. *)
Theorem assignment_round_trip :
  forall variables name rhs variables',
    ascii_name name = true ->
    parse_assignment variables (name +:+ "=" +:+ rhs) = Value (variables', []) ->
    exists result,
      parse_expression variables rhs = Value result /\
      parse_expression variables' name = Value result.
Proof.
  intros variables name rhs variables' Hname H.
  assert (Hsplit : split_assignment (name +:+ "=" +:+ rhs) = [name; rhs]).
  { apply split_assignment_parts. apply ascii_name_isalpha in Hname.
    unfold isalpha in Hname. apply andb_true_iff in Hname. tauto. }
  destruct (parse_assignment_cases _ _ _ _ H)
    as [[_ Hout]|(_ & line0 & line1 & result & Hs & _ & Hr & _ & ->)].
  - cbn [In] in Hout. intuition discriminate.
  - rewrite Hsplit in Hs. inversion Hs; subst line0 line1.
    exists result. split; [exact Hr|].
    rewrite (parse_expression_name _ name Hname), lookup_insert_eq. reflexivity.
Qed.

Lemma assignment_round_trip_witness :
  ascii_name "n" = true /\
  parse_assignment ∅ ("n" +:+ "=" +:+ "2*3") = Value (<["n" := VInt 6]> ∅, []) /\
  exists result,
    parse_expression ∅ "2*3" = Value result /\
    parse_expression (<["n" := VInt 6]> ∅) "n" = Value result.
Proof.
  assert (H1 : ascii_name "n" = true) by reflexivity.
  assert (H2 : parse_assignment ∅ ("n" +:+ "=" +:+ "2*3") = Value (<["n" := VInt 6]> ∅, []))
    by (vm_compute; reflexivity).
  split; [exact H1|split; [exact H2|]].
  exact (assignment_round_trip ∅ "n" "2*3" _ H1 H2).
Defined.

(** X10.  The checks of an assignment, in their order: nothing before the
    [=] gives ["Invalid expression"]; a left-hand side that is not all
    letters gives ["Invalid identifier"]; after a valid left-hand side
    nothing after the [=] gives ["Invalid assignment"].  The dictionary is
    left as it was. *)
Theorem assignment_validation :
  forall variables,
    (forall rhs,
       parse_assignment variables ("=" +:+ rhs) =
       Value (variables, [say "Invalid expression"])) /\
    (forall lhs rhs,
       lhs <> "" -> str_in "=" lhs = false -> isalpha lhs = false ->
       parse_assignment variables (lhs +:+ "=" +:+ rhs) =
       Value (variables, [say "Invalid identifier"])) /\
    (forall lhs,
       isalpha lhs = true ->
       parse_assignment variables (lhs +:+ "=") =
       Value (variables, [say "Invalid assignment"])).
Proof.
  intros variables. split; [|split].
  - intros rhs. reflexivity.
  - intros lhs rhs Hne Hno Halpha. unfold parse_assignment.
    rewrite (split_assignment_at lhs rhs Hno). apply String.eqb_neq in Hne.
    rewrite Hne, Halpha. reflexivity.
  - intros lhs Halpha. unfold parse_assignment.
    change (lhs +:+ "=") with (lhs +:+ "=" +:+ "").
    rewrite (split_assignment_parts lhs "").
    2:{ unfold isalpha in Halpha. apply andb_true_iff in Halpha. tauto. }
    assert (Hne : String.eqb lhs "" = false).
    { unfold isalpha in Halpha. apply andb_true_iff in Halpha as [H _].
      apply negb_true_iff in H. exact H. }
    rewrite Hne, Halpha. reflexivity.
Qed.

Lemma assignment_validation_witness :
  "2a" <> "" /\ str_in "=" "2a" = false /\ isalpha "2a" = false /\
  parse_assignment ∅ ("2a" +:+ "=" +:+ "5") = Value (∅, [say "Invalid identifier"]).
Proof.
  assert (H1 : "2a" <> "") by discriminate.
  assert (H2 : str_in "=" "2a" = false) by reflexivity.
  assert (H3 : isalpha "2a" = false) by reflexivity.
  split; [exact H1|split; [exact H2|split; [exact H3|]]].
  exact (proj1 (proj2 (assignment_validation ∅)) "2a" "5" H1 H2 H3).
Defined.

(** X11.  White space counts for nothing: a text of white space put
    anywhere into a line does not change what the line does, and a line of
    white space alone does nothing. *)
Theorem whitespace_ignored :
  forall variables ws,
    all_whitespace ws = true ->
    (forall a b, main_step variables (a +:+ ws +:+ b) = main_step variables (a +:+ b)) /\
    main_step variables ws = Value (variables, []).
Proof.
  intros variables ws Hws. split.
  - intros a b. unfold main_step.
    rewrite !remove_whitespace_app, (remove_whitespace_blank ws Hws). reflexivity.
  - unfold main_step. rewrite (remove_whitespace_blank ws Hws). reflexivity.
Qed.

Lemma whitespace_ignored_witness :
  all_whitespace "  " = true /\
  main_step ∅ ("2+" +:+ "  " +:+ "3") = main_step ∅ ("2+" +:+ "3").
Proof.
  split; [reflexivity|].
  apply (proj1 (whitespace_ignored ∅ "  " eq_refl)).
Defined.

Lemma alphabetic_not_ascii c :
  alphabetic c = true -> str_in (str c) ascii_letters = false -> acceptable c = false.
Proof. destruct c as [[] [] [] [] [] [] [] []]; vm_compute; congruence. Qed.

Lemma foreign_letter name :
  all_alphabetic name = true -> ascii_letters_only name = false ->
  exists pre c rest, name = pre +:+ String c rest /\ acceptable c = false.
Proof.
  induction name as [|c name IH]; [discriminate|].
  cbn [all_alphabetic ascii_letters_only]. intros Ha Hl.
  apply andb_true_iff in Ha as [Hc Ha].
  destruct (str_in (str c) ascii_letters) eqn:E.
  - destruct (IH Ha Hl) as (pre & x & rest & -> & Hx).
    exists (String c pre), x, rest. split; [reflexivity|exact Hx].
  - exists "", c, name. split; [reflexivity|]. apply alphabetic_not_ascii; assumption.
Qed.

(** X12.  A name that [isalpha] accepts on the left of an assignment but
    that has a letter outside [string.ascii_letters] cannot be read: as an
    expression it is invalid, whatever the dictionary holds for it. *)
Theorem foreign_identifier_unreadable :
  forall variables name,
    isalpha name = true -> ascii_name name = false ->
    parse_expression variables name = Value invalid_expression.
Proof.
  intros variables name Halpha Hascii. unfold isalpha in Halpha.
  apply andb_true_iff in Halpha as [Hne Hall]. unfold ascii_name in Hascii.
  rewrite Hne in Hascii. cbn [andb] in Hascii.
  destruct (foreign_letter name Hall Hascii) as (pre & c & rest & -> & Hc).
  unfold parse_expression.
  replace (infix_to_rpn (pre +:+ String c rest)) with Error; [reflexivity|].
  symmetry. apply (infix_to_rpn_refused _ (String.length pre)).
  - rewrite str_length_app. cbn [String.length]. lia.
  - unfold well_placed.
    rewrite (view_char _ pre (String.length pre) c rest eq_refl eq_refl), Hc.
    reflexivity.
Qed.

Lemma foreign_identifier_unreadable_witness :
  isalpha (String (ascii_of_nat 233) "") = true /\
  ascii_name (String (ascii_of_nat 233) "") = false /\
  parse_assignment ∅ (String (ascii_of_nat 233) "=5") =
    Value (<[String (ascii_of_nat 233) "" := VInt 5]> ∅, []) /\
  parse_expression (<[String (ascii_of_nat 233) "" := VInt 5]> ∅)
                   (String (ascii_of_nat 233) "") = Value invalid_expression.
Proof.
  split; [reflexivity|split; [reflexivity|split; [vm_compute; reflexivity|]]].
  apply foreign_identifier_unreadable; reflexivity.
Defined.

Lemma parse_expression_no_index_error variables infix :
  parse_expression variables infix <> Raised IndexError.
Proof.
  unfold parse_expression. destruct (infix_to_rpn infix); [discriminate|].
  apply eval_loop_no_index_error.
Qed.

Lemma parse_assignment_no_index_error variables line :
  str_in "=" line = true -> parse_assignment variables line <> Raised IndexError.
Proof.
  intros Heq. unfold parse_assignment.
  destruct (split_assignment_shape line) as [[_ Hno]|(line0 & line1 & -> & _ & _)];
    [congruence|].
  destruct (String.eqb line0 ""); [discriminate|].
  destruct (negb (isalpha line0)); [discriminate|].
  destruct (String.eqb line1 ""); [discriminate|].
  destruct (_ && _); [discriminate|].
  pose proof (parse_expression_no_index_error variables line1) as H.
  destruct (parse_expression variables line1) as [result|e|]; [|congruence|discriminate].
  destruct (is_error_message result); discriminate.
Qed.




(** X15.  A sign before an operand: [-] gives the operand negated, [+] the
    operand itself; the operand is a literal or an expression in
    parentheses. *)
Theorem signed_operand :
  forall variables a v,
    denote_atom a = Some v ->
    parse_expression variables (String "-" (text_atom a)) = Value (VInt (- v)) /\
    parse_expression variables (String "+" (text_atom a)) = Value (VInt v).
Proof.
  intros variables a v Hv.
  destruct (evaluates_grammar variables) as (Hatom & _).
  unfold parse_expression, rpn_to_result. split.
  - rewrite (infix_to_rpn_signed "-" a) by auto.
    change (Ascii.eqb "-" "-") with true. cbv iota.
    rewrite (Hatom a v Hv [TStr "#"] []). cbn [eval_loop apply_token].
    change (String.eqb "#" "#") with true. cbv iota.
    cbn [py_mul push finish length Nat.ltb Nat.leb].
    replace (-1 * v)%Z with (- v)%Z by lia. reflexivity.
  - rewrite (infix_to_rpn_signed "+" a) by auto.
    change (Ascii.eqb "+" "-") with false. cbv iota.
    rewrite (Hatom a v Hv [] []). reflexivity.
Qed.

Lemma signed_operand_witness :
  denote_atom
    (Paren (Add (ETerm (TPower (PAtom (Lit D2 [])))) (TPower (PAtom (Lit D3 []))))) =
  Some 5%Z /\
  parse_expression ∅
    (String "-"
       (text_atom
          (Paren (Add (ETerm (TPower (PAtom (Lit D2 []))))
                      (TPower (PAtom (Lit D3 []))))))) = Value (VInt (- 5)).
Proof.
  split; [reflexivity|].
  apply (proj1 (signed_operand ∅
                  (Paren (Add (ETerm (TPower (PAtom (Lit D2 []))))
                              (TPower (PAtom (Lit D3 []))))) 5%Z eq_refl)).
Defined.

(** * An operator with nothing after it *)

Lemma infix_to_rpn_trailing c e :
  c = "+"%char \/ c = "-"%char ->
  infix_to_rpn (text_expr e +:+ str c) = Rpn (postfix_expr e ++ [TStr (str c)]).
Proof.
  intros Hc. destruct reads_grammar as (_ & _ & _ & Hexpr).
  set (infix := text_expr e +:+ str c).
  assert (Hpending : Forall (fun s => str_in s "+-*/^#" = true) (pending_expr e)).
  { eapply class_all; [apply pending_expr_class|]. repeat constructor. }
  assert (H : converges infix initial (Rpn (postfix_expr e ++ [TStr (str c)]))).
  { apply (Hexpr e infix "" (str c) 0 [] []); [reflexivity|reflexivity| |exact I|].
    { destruct Hc as [-> | ->]; cbn [follows str In]; auto. }
    cbn [Nat.add app]. rewrite app_nil_r.
    assert (Hview : infix = text_expr e +:+ String c "") by reflexivity.
    assert (Hstep : operator infix
                      (State (String.length (text_expr e)) (emitted_expr e) (pending_expr e)) =
                    Continue (State (String.length (text_expr e) + 1)
                                    (postfix_expr e) [str c])).
    { pose proof (pop_while_pending (fun top => str_in top "+-*/^#") (pending_expr e) []
                    (emitted_expr e) Hpending I) as Hpop.
      rewrite app_nil_r, emitted_pending_expr in Hpop.
      destruct Hc as [-> | ->].
      - rewrite (operator_plus infix (text_expr e) _ _ _ eq_refl "" Hview eq_refl).
        rewrite Hpop. reflexivity.
      - rewrite (operator_minuses infix (text_expr e) _ _ _ eq_refl 0 "" Hview eq_refl).
        rewrite Hpop. reflexivity. }
    eapply resumes_step; [exact Hstep|].
    pose proof (converges_end infix
                  (State (String.length (text_expr e) + 1) (postfix_expr e) [str c]))
      as Hend.
    cbn [pos stack result drain] in Hend.
    replace (String.eqb (str c) "(") with false in Hend
      by (destruct Hc as [-> | ->]; reflexivity).
    apply Hend. unfold infix. rewrite str_length_app. cbn [str String.length]. lia. }
  destruct H as [fuel Hfuel]. eapply scan_infix_to_rpn. exact Hfuel.
Qed.

(** X17.  A well-formed expression followed by [+] or [-] and nothing else
    is converted, with the operator last, and evaluates to ["Invalid
    expression"]: the operator finds one value on the stack. *)
Theorem trailing_sign_invalid :
  forall variables c e v,
    In c ["+"; "-"]%char ->
    denote_expr e = Some v ->
    infix_to_rpn (text_expr e +:+ str c) = Rpn (postfix_expr e ++ [TStr (str c)]) /\
    parse_expression variables (text_expr e +:+ str c) = Value invalid_expression.
Proof.
  intros variables c e v Hc Hv.
  assert (Hc' : c = "+"%char \/ c = "-"%char).
  { cbn [In] in Hc. intuition congruence. }
  pose proof (infix_to_rpn_trailing c e Hc') as H. split; [exact H|].
  unfold parse_expression, rpn_to_result. rewrite H.
  destruct (evaluates_grammar variables) as (_ & _ & _ & Hexpr).
  rewrite (Hexpr e v Hv). destruct Hc' as [-> | ->]; reflexivity.
Qed.

Lemma trailing_sign_invalid_witness :
  In "+"%char ["+"; "-"]%char /\
  denote_expr (ETerm (Mul (TPower (PAtom (Lit D2 []))) (PAtom (Lit D3 [])))) = Some 6%Z /\
  parse_expression ∅
    (text_expr (ETerm (Mul (TPower (PAtom (Lit D2 []))) (PAtom (Lit D3 [])))) +:+ str "+") =
  Value invalid_expression.
Proof.
  assert (H1 : In "+"%char ["+"; "-"]%char) by (left; reflexivity).
  split; [exact H1|split; [reflexivity|]].
  exact (proj2 (trailing_sign_invalid ∅ "+"
                  (ETerm (Mul (TPower (PAtom (Lit D2 []))) (PAtom (Lit D3 []))))
                  6%Z H1 eq_refl)).
Defined.
